(** * weighted_shuffle: a shallow embedding of [weighted_shuffle.py]

    The script is a short-lived process started by cmus (or by a key
    binding).  Everything it remembers lives in two SQLite files: the
    score table [song_scores] and the session tables [flag_stack],
    [queue_history] and [state_changes].  The embedding keeps the four
    tables as lists of rows in insertion (rowid) order, threads them through
    a state-and-exception monad, and leaves the outside world (clock, random
    source, child processes) abstract behind the class [Runtime].

    Modelling conventions
    - Python [int] is [Z]; SQLite INTEGER is [Z] restricted to 64 bits where
      a value coming from outside is bound to a statement.
    - Python [str] is [string], holding the UTF-8 encoding of the text.
    - Python numbers produced by [2**score] (an [int] for a non-negative
      score, a [float] otherwise) are kept abstract behind [PyNum]: the
      statements below do not depend on how they round, except the one
      about the selector's loop, which is made for exact rationals.
    - An exception is the [Raise] result; tables keep what was committed
      before it was raised, as every [sql]/[sql_tmp] call commits on its own.
    - Failures of the storage layer itself (disk, locking) are not modelled. *)

From Stdlib Require Import ZArith QArith Qround Qpower List String Ascii Bool Lia.
From Stdlib Require Import DecimalString.
From stdpp Require Import base list strings gmap.

Local Open Scope string_scope.
Local Open Scope list_scope.
Local Open Scope Z_scope.

(** ** Configuration *)

Definition MIN_SCORE : Z := -1.
Definition DEFAULT_SCORE : Z := 2.
Definition MAX_SCORE : Z := 15.
Definition MAX_QUEUE_SIZE : nat := 20.

(** ** Data model: one record per table row *)

Definition Time := Z.

Module SongScores.
Record row := Row { path : string; score : Z; last_played : Time }.
End SongScores.

Module FlagStack.
Record row := Row { flag_id : Z; flag : string; timestamp : Time }.
End FlagStack.

Module QueueHistory.
(** [path] is nullable: the handler stores [None] on the first transition. *)
Record row := Row { path : option string; timestamp : Time }.
End QueueHistory.

Module StateChanges.
Record row := Row {
  state_id : Z; path : string; status : string;
  position : Z; duration : Z; timestamp : Time }.
End StateChanges.

(** ** Exceptions and log lines *)

Inductive Exn :=
| IndexError
| KeyError (key : string)
| ValueError
| ZeroDivisionError
| OverflowError
| CalledProcessError
| IntegrityError
| OperationalError.

Inductive Result (A : Type) :=
| Ok (a : A)
| Raise (e : Exn).
Arguments Ok {A} a.
Arguments Raise {A} e.

(** The text handed to [log], one constructor per f-string of the source. *)
Inductive LogMsg :=
| LogNewSong (path : string)
| LogUpdatedScore (path : string) (old new : Z)
| LogPicked (path : string)
| LogSomethingWentWrong (song : SongScores.row)
| LogQueueFull (path : string)
| LogAddedToQueue (path : string)
| LogNoPrevious
| LogPrepended (path : string)
| LogSeparator
| LogTraceback (e : Exn).

(** ** Python numbers, abstract *)

Class PyNum := {
  num : Type;
  num_of_Z : Z -> num;
  num_pow2 : Z -> num;                      (* 2**score *)
  num_add : num -> num -> num;
  num_sub : num -> num -> num;
  num_mul : num -> num -> num;
  num_div : num -> num -> option num;       (* None: ZeroDivisionError *)
  num_leb : num -> num -> bool;
  num_ltb : num -> num -> bool;
  DISABLE_WEIGHTED_SHUFFLE_THRESHOLD : num; (* the literal 0.3 *)
  format_2f : num -> string                 (* f"{x:.2f}" *)
}.

(** ** The outside world *)

Class Runtime `{PyNum} := {
  Env : Type;
  (** [datetime.now()] *)
  datetime_now : Env -> Time * Env;
  (** A child process run to completion: its decoded standard output, or
      [None] when it exits with a non-zero status. *)
  run_process : list string -> Env -> option string * Env;
  (** [random.random()] and the index drawn by [random.choice]. *)
  random_random : Env -> num * Env;
  randbelow : nat -> Env -> nat * Env;
  (** The built-in [int] on a [str]; [None] is [ValueError]. *)
  py_int : string -> option Z;
  (** The rowid SQLite draws at random once the largest rowid of a table is
      the largest 64-bit integer; [None] when it gives up. *)
  sqlite_random_rowid : Env -> option Z * Env
}.

(** ** Text helpers: the [str] methods the script uses

    A [str] is held as its UTF-8 encoding: the bytes the script decodes
    from its child processes and hands back to them.  The one-byte
    separators it splits on and the ASCII words it tests for never occur
    inside a longer character, so those operations work on the bytes.
    Whitespace is Unicode's: besides the ASCII blanks, [str.strip] removes
    the two-byte and three-byte characters listed below. *)

(** [c.isspace()] for a one-byte character: TAB to CR, FS to US, space. *)
Definition is_space (c : ascii) : bool :=
  let n := nat_of_ascii c in
  (((9 <=? n) && (n <=? 13)) || ((28 <=? n) && (n <=? 32)))%nat.

(** The two-byte whitespace characters: U+0085 (C2 85) and U+00A0 (C2 A0). *)
Definition is_space2 (a b : ascii) : bool :=
  let m := nat_of_ascii a in
  let n := nat_of_ascii b in
  ((m =? 194) && ((n =? 133) || (n =? 160)))%nat.

(** The three-byte whitespace characters: U+1680 (E1 9A 80), U+2000 to
    U+200A (E2 80 80 to E2 80 8A), U+2028, U+2029 and U+202F (E2 80 A8,
    A9, AF), U+205F (E2 81 9F) and U+3000 (E3 80 80). *)
Definition is_space3 (a b c : ascii) : bool :=
  let m := nat_of_ascii a in
  let n := nat_of_ascii b in
  let k := nat_of_ascii c in
  (((m =? 225) && (n =? 154) && (k =? 128))
   || ((m =? 226) && (n =? 128)
       && (((128 <=? k) && (k <=? 138)) || (k =? 168) || (k =? 169) || (k =? 175)))
   || ((m =? 226) && (n =? 129) && (k =? 159))
   || ((m =? 227) && (n =? 128) && (k =? 128)))%nat.

(** [s.lstrip()] *)
Fixpoint lstrip (s : string) : string :=
  match s with
  | EmptyString => EmptyString
  | String a s1 =>
      if is_space a then lstrip s1
      else
        match s1 with
        | EmptyString => s
        | String b s2 =>
            if is_space2 a b then lstrip s2
            else
              match s2 with
              | EmptyString => s
              | String c s3 => if is_space3 a b c then lstrip s3 else s
              end
        end
  end.

(** A string that is one whitespace character and nothing else. *)
Definition is_blank (s : string) : bool :=
  match s with
  | String a EmptyString => is_space a
  | String a (String b EmptyString) => is_space2 a b
  | String a (String b (String c EmptyString)) => is_space3 a b c
  | _ => false
  end.

(** [s.rstrip()]: the tail is stripped first; what is left of it, with the
    character in front, is dropped when it is a single blank. *)
Fixpoint rstrip (s : string) : string :=
  match s with
  | EmptyString => EmptyString
  | String c s' =>
      let r := String c (rstrip s') in
      if is_blank r then EmptyString else r
  end.

(** [s.strip()] *)
Definition py_strip (s : string) : string := rstrip (lstrip s).

(** [s.split(sep)] for a one-character separator. *)
Fixpoint py_split (sep : ascii) (s : string) : list string :=
  match s with
  | EmptyString => [EmptyString]
  | String c s' =>
      if Ascii.eqb c sep then EmptyString :: py_split sep s'
      else match py_split sep s' with
           | [] => [String c EmptyString]
           | p :: ps => String c p :: ps
           end
  end.

(** [s.split(sep, 1)]: [None] when [sep] does not occur (one piece). *)
Fixpoint py_split1 (sep : ascii) (s : string) : option (string * string) :=
  match s with
  | EmptyString => None
  | String c s' =>
      if Ascii.eqb c sep then Some (EmptyString, s')
      else match py_split1 sep s' with
           | Some (k, v) => Some (String c k, v)
           | None => None
           end
  end.

(** [line.startswith(('status', 'file', 'position', 'duration'))] *)
Definition startswith_any (prefixes : list string) (line : string) : bool :=
  existsb (fun p => String.prefix p line) prefixes.

(** [f"{n}"] for an [int]. *)
Definition py_str_int (n : Z) : string := NilZero.string_of_int (Z.to_int n).

(** [f"{x}"] for a value that is a [str] or [None]. *)
Definition py_str_opt (x : option string) : string :=
  match x with
  | Some s => s
  | None => "None"
  end.

Definition newline : ascii := ascii_of_nat 10.
Definition space : ascii := ascii_of_nat 32.
Definition comma : ascii := ascii_of_nat 44.

(** ** SQL building blocks, independent of the runtime *)

(** [ORDER BY timestamp DESC LIMIT 1]: the row with the largest timestamp
    and its position in the table; among equal timestamps (SQL leaves the
    choice open) the one inserted first. *)
Fixpoint latest {A : Type} (ts : A -> Time) (rows : list A) : option (nat * A) :=
  match rows with
  | [] => None
  | r :: rest =>
      match latest ts rest with
      | Some (i, r') => if ts r <? ts r' then Some (S i, r') else Some (0%nat, r)
      | None => Some (0%nat, r)
      end
  end.

(** [DELETE ... ORDER BY timestamp DESC LIMIT 1] *)
Definition delete_latest {A : Type} (ts : A -> Time) (rows : list A) : list A :=
  match latest ts rows with
  | Some (i, _) => delete i rows
  | None => rows
  end.

(** [ORDER BY score DESC]: a stable insertion sort, largest score first. *)
Fixpoint insert_by_score (r : SongScores.row) (sorted : list SongScores.row)
  : list SongScores.row :=
  match sorted with
  | [] => [r]
  | x :: xs =>
      if SongScores.score x <=? SongScores.score r then r :: x :: xs
      else x :: insert_by_score r xs
  end.

Definition order_by_score_desc (rows : list SongScores.row) : list SongScores.row :=
  foldr insert_by_score [] rows.

Definition INT64_MIN : Z := - 2 ^ 63.
Definition INT64_MAX : Z := 2 ^ 63 - 1.

Definition fits_int64 (z : Z) : bool := (INT64_MIN <=? z) && (z <=? INT64_MAX).

(** The rowid of the next row when it follows from the ones in use: 1 in an
    empty table, else the largest plus one while that fits. *)
Definition next_rowid (ids : list Z) : option Z :=
  match ids with
  | [] => Some 1
  | i :: rest =>
      let largest := foldr Z.max i rest in
      if largest <? INT64_MAX then Some (largest + 1) else None
  end.

(** [WHERE flag='ignore'] and [WHERE flag='notification_id'] *)
Definition flags_named (name : string) (rows : list FlagStack.row) : list FlagStack.row :=
  filter (fun r => FlagStack.flag r = name) rows.

(** [DELETE FROM flag_stack WHERE flag_id=?] *)
Definition delete_flag (id : Z) (rows : list FlagStack.row) : list FlagStack.row :=
  filter (fun r => FlagStack.flag_id r <> id) rows.

(** [WHERE path=?] on [song_scores] *)
Definition scores_of (p : string) (rows : list SongScores.row) : list SongScores.row :=
  filter (fun r => SongScores.path r = p) rows.

(** [UPDATE song_scores SET score=?, last_played=? WHERE path=?] *)
Definition set_score (p : string) (s : Z) (t : Time) (rows : list SongScores.row)
  : list SongScores.row :=
  map (fun r => if bool_decide (SongScores.path r = p)
                then SongScores.Row p s t else r) rows.

(** The score test of [update_score]. *)
Definition bounded_add (score increment : Z) : Z :=
  if (MIN_SCORE <=? score + increment) && (score + increment <=? MAX_SCORE)
  then score + increment else score.

(** The [for] loop of [get_cmus_current_state]. *)
Fixpoint parse_status (lines : list string) (status : gmap string string)
  : Result (gmap string string) :=
  match lines with
  | [] => Ok status
  | line :: rest =>
      if startswith_any ["status"; "file"; "position"; "duration"] line then
        match py_split1 space line with
        | Some (key, value) => parse_status rest (<[key := py_strip value]> status)
        | None => Raise ValueError
        end
      else parse_status rest status
  end.

Section Model.
Context `{RT : Runtime}.

(** ** The state of one installation *)

Record World := mkWorld {
  song_scores : list SongScores.row;
  flag_stack : list FlagStack.row;
  queue_history : list QueueHistory.row;
  state_changes : list StateChanges.row;
  log_file : list (Time * LogMsg);
  (** every child process started, oldest first *)
  calls : list (list string);
  env : Env
}.

Definition with_song_scores (f : list SongScores.row -> list SongScores.row) (w : World) :=
  mkWorld (f (song_scores w)) (flag_stack w) (queue_history w) (state_changes w)
          (log_file w) (calls w) (env w).
Definition with_flag_stack (f : list FlagStack.row -> list FlagStack.row) (w : World) :=
  mkWorld (song_scores w) (f (flag_stack w)) (queue_history w) (state_changes w)
          (log_file w) (calls w) (env w).
Definition with_queue_history (f : list QueueHistory.row -> list QueueHistory.row) (w : World) :=
  mkWorld (song_scores w) (flag_stack w) (f (queue_history w)) (state_changes w)
          (log_file w) (calls w) (env w).
Definition with_state_changes (f : list StateChanges.row -> list StateChanges.row) (w : World) :=
  mkWorld (song_scores w) (flag_stack w) (queue_history w) (f (state_changes w))
          (log_file w) (calls w) (env w).
Definition with_log_file (f : list (Time * LogMsg) -> list (Time * LogMsg)) (w : World) :=
  mkWorld (song_scores w) (flag_stack w) (queue_history w) (state_changes w)
          (f (log_file w)) (calls w) (env w).
Definition with_calls (f : list (list string) -> list (list string)) (w : World) :=
  mkWorld (song_scores w) (flag_stack w) (queue_history w) (state_changes w)
          (log_file w) (f (calls w)) (env w).
Definition with_env (e : Env) (w : World) :=
  mkWorld (song_scores w) (flag_stack w) (queue_history w) (state_changes w)
          (log_file w) (calls w) e.

(** ** State and exceptions *)

Definition M (A : Type) : Type := World -> Result A * World.

Definition ret {A} (a : A) : M A := fun w => (Ok a, w).
Definition raise {A} (e : Exn) : M A := fun w => (Raise e, w).
Definition bind {A B} (m : M A) (k : A -> M B) : M B :=
  fun w => match m w with
           | (Ok a, w') => k a w'
           | (Raise e, w') => (Raise e, w')
           end.
Definition gets {A} (f : World -> A) : M A := fun w => (Ok (f w), w).
Definition modify (f : World -> World) : M unit := fun w => (Ok tt, f w).
Definition lift {A} (r : Result A) : M A := fun w => (r, w).

Notation "x <- m ;; k" := (bind m (fun x => k))
  (at level 100, m at next level, right associativity).
Notation "m ;;; k" := (bind m (fun _ => k))
  (at level 100, right associativity).

(** ** Primitives over the runtime *)

Definition now : M Time :=
  fun w => let r := datetime_now (env w) in (Ok (fst r), with_env (snd r) w).

Definition check_output (argv : list string) : M string :=
  fun w =>
    let r := run_process argv (env w) in
    let w' := with_env (snd r) (with_calls (fun c => c ++ [argv]) w) in
    match fst r with
    | Some s => (Ok s, w')
    | None => (Raise CalledProcessError, w')
    end.

(** [subprocess.run(argv, check=True)] *)
Definition run_checked (argv : list string) : M unit :=
  check_output argv ;;; ret tt.

Definition random : M num :=
  fun w => let r := random_random (env w) in (Ok (fst r), with_env (snd r) w).

(** [random.uniform(a, b)] is [a + (b-a) * random()]. *)
Definition uniform (a b : num) : M num :=
  u <- random ;; ret (num_add a (num_mul (num_sub b a) u)).

(** [random.choice(seq)]: [IndexError] on an empty sequence. *)
Definition choice {A} (seq : list A) : M A :=
  fun w =>
    match seq with
    | [] => (Raise IndexError, w)
    | x :: _ =>
        let r := randbelow (length seq) (env w) in
        (Ok (nth (fst r mod length seq) seq x), with_env (snd r) w)
    end.

(** The rowid SQLite gives a row inserted without one: one more than the
    largest in use, unless that is the largest 64-bit integer, in which
    case an unused one is drawn at random. *)
Definition new_rowid (ids : list Z) : M Z :=
  match next_rowid ids with
  | Some id => ret id
  | None =>
      fun w =>
        let r := sqlite_random_rowid (env w) in
        let w' := with_env (snd r) w in
        match fst r with
        | Some v => if bool_decide (v ∈ ids) then (Raise OperationalError, w')
                    else (Ok v, w')
        | None => (Raise OperationalError, w')
        end
  end.

(** An [int] bound to a statement must fit SQLite's 64 bits. *)
Definition bind_int (z : Z) : M Z :=
  if fits_int64 z then ret z else raise OverflowError.

(** [d[key]] *)
Definition getitem (d : gmap string string) (key : string) : M string :=
  match d !! key with
  | Some v => ret v
  | None => raise (KeyError key)
  end.

(** [int(s)] *)
Definition int_of (s : string) : M Z :=
  match py_int s with
  | Some z => ret z
  | None => raise ValueError
  end.

(** [seq[i]] *)
Definition index (seq : list string) (i : nat) : M string :=
  match seq !! i with
  | Some v => ret v
  | None => raise IndexError
  end.

(** ** Helper functions *)

Definition log (message : LogMsg) : M unit :=
  t <- now ;; modify (with_log_file (fun l => l ++ [(t, message)])).

Definition get_score (path : string) : M Z :=
  results <- gets (fun w => scores_of path (song_scores w)) ;;
  match results with
  | song :: _ => ret (SongScores.score song)
  | [] =>
      log (LogNewSong path) ;;;
      t <- now ;;
      modify (with_song_scores (fun rows => rows ++ [SongScores.Row path DEFAULT_SCORE t])) ;;;
      ret DEFAULT_SCORE
  end.

Definition update_score (path : string) (increment : Z) : M Z :=
  score <- get_score path ;;
  let new_score := bounded_add score increment in
  t <- now ;;
  modify (with_song_scores (set_score path new_score t)) ;;;
  log (LogUpdatedScore path score new_score) ;;;
  ret new_score.

(** [sum(2**song['score'] for song in songs)] *)
Definition total_weight (songs : list SongScores.row) : num :=
  fold_left num_add (map (fun song => num_pow2 (SongScores.score song)) songs)
            (num_of_Z 0).

(** The [for] loop of [get_weighted_shuffled_song]: the first song at
    which the running remainder is no longer positive. *)
Fixpoint scan_songs (r : num) (songs : list SongScores.row) : option SongScores.row :=
  match songs with
  | [] => None
  | song :: rest =>
      let r' := num_sub r (num_pow2 (SongScores.score song)) in
      if num_leb r' (num_of_Z 0) then Some song else scan_songs r' rest
  end.

Definition get_weighted_shuffled_song : M SongScores.row :=
  songs <- gets (fun w => order_by_score_desc (song_scores w)) ;;
  let total_computed_score := total_weight songs in
  r <- uniform (num_of_Z 0) total_computed_score ;;
  match scan_songs r songs with
  | Some song => log (LogPicked (SongScores.path song)) ;;; ret song
  | None =>
      random_song <- choice songs ;;
      log (LogSomethingWentWrong random_song) ;;;
      ret random_song
  end.

Definition get_cmus_current_state : M (gmap string string) :=
  output <- check_output ["cmus-remote"; "-Q"] ;;
  let lines := py_split newline (py_strip output) in
  lift (parse_status lines ∅).

Definition get_playing_chance (score : Z) : M num :=
  songs <- gets song_scores ;;
  match num_div (num_pow2 score) (total_weight songs) with
  | Some x => ret x
  | None => raise ZeroDivisionError
  end.

(** The [while] loop of [add_to_queue]; [tries_left] is [10 - tries]. *)
Fixpoint reselect (tries_left : nat) (queue : list string) (song_path : string)
  : M string :=
  if bool_decide (song_path ∈ queue) then
    match tries_left with
    | O => ret song_path
    | S n =>
        song <- get_weighted_shuffled_song ;;
        reselect n queue (SongScores.path song)
    end
  else ret song_path.

Definition add_to_queue (song_path : string) : M unit :=
  output <- check_output ["cmus-remote"; "-C"; "save -q -"] ;;
  let queue := py_split newline (py_strip output) in
  if (MAX_QUEUE_SIZE <=? length queue)%nat then
    log (LogQueueFull song_path)
  else
    song_path' <- reselect 10 queue song_path ;;
    run_checked ["cmus-remote"; "-q"; song_path'] ;;;
    log (LogAddedToQueue song_path').

(** ** Main functions *)

Definition last_path (rows : list StateChanges.row) : option string :=
  match latest StateChanges.timestamp rows with
  | Some (_, last_state) => Some (StateChanges.path last_state)
  | None => None
  end.

(** Lines 175-177: the INSERT into [state_changes].  The parameters are
    evaluated first (the clock is read), then bound, then the row gets the
    next rowid. *)
Definition insert_state_change (path status : string) (position duration : Z)
  : M unit :=
  t <- now ;;
  position <- bind_int position ;;
  duration <- bind_int duration ;;
  ids <- gets (fun w => map StateChanges.state_id (state_changes w)) ;;
  id <- new_rowid ids ;;
  modify (with_state_changes
            (fun rows => rows ++ [StateChanges.Row id path status position duration t])).

(** Lines 188-193: the next song, from the whole library with probability
    [DISABLE_WEIGHTED_SHUFFLE_THRESHOLD], from the weighted selector
    otherwise. *)
Definition pick_next_song : M string :=
  u <- random ;;
  if num_ltb u DISABLE_WEIGHTED_SHUFFLE_THRESHOLD then
    (* Pick a song randomly from library *)
    output <- check_output ["cmus-remote"; "-C"; "save -l -"] ;;
    choice (py_split newline (py_strip output))
  else
    song <- get_weighted_shuffled_song ;;
    ret (SongScores.path song).

(** Lines 184-214: what the handler does for a change of song that is not
    absorbed by an ignore flag. *)
Definition enqueue_next (last : option string) (path : string) : M unit :=
  (* add the previous song to the queue history *)
  t <- now ;;
  modify (with_queue_history (fun rows => rows ++ [QueueHistory.Row last t])) ;;;
  new_song_path <- pick_next_song ;;
  add_to_queue new_song_path ;;;
  (* Ensure song is in the database *)
  get_score path ;;;
  ret tt.

(** Lines 179-214: consume the latest ignore flag if there is one, else
    go on to the queue. *)
Definition absorb_or_enqueue (last : option string) (path : string) : M unit :=
  ignore_flags <- gets (fun w => latest FlagStack.timestamp
                                        (flags_named "ignore" (flag_stack w))) ;;
  match ignore_flags with
  | Some (_, f) =>
      modify (with_flag_stack (delete_flag (FlagStack.flag_id f)))
  | None => enqueue_next last path
  end.

Definition handle_state_change (new_state : gmap string string) : M unit :=
  path <- getitem new_state "file" ;;
  status <- getitem new_state "status" ;;
  position <- (s <- getitem new_state "position" ;; int_of s) ;;
  duration <- (s <- getitem new_state "duration" ;; int_of s) ;;
  (* Get latest state changes *)
  last <- gets (fun w => last_path (state_changes w)) ;;
  (* If same song, exit *)
  if bool_decide (last = Some path) then ret tt
  else
    insert_state_change path status position duration ;;;
    absorb_or_enqueue last path.

Definition handle_previous : M unit :=
  result <- gets (fun w => latest QueueHistory.timestamp (queue_history w)) ;;
  match result with
  | None =>
      log LogNoPrevious ;;;
      run_checked ["cmus-remote"; "-r"]
  | Some (_, row) =>
      let previous_song := QueueHistory.path row in
      (* Get the currently playing song *)
      state <- get_cmus_current_state ;;
      current_song <- getitem state "file" ;;
      (* Remove the previous song from the queue history *)
      modify (with_queue_history (delete_latest QueueHistory.timestamp)) ;;;
      (* Prepend the currently playing song to the cmus queue *)
      run_checked ["cmus-remote"; "-C"; String.append "add -Q " current_song] ;;;
      log (LogPrepended current_song) ;;;
      (* Play the previous song *)
      run_checked ["cmus-remote"; "-C";
                   String.append "player-play " (py_str_opt previous_song)]
  end.

(** [INSERT INTO flag_stack (flag, timestamp) VALUES ('ignore', now)] *)
Definition push_ignore_flag : M unit :=
  t <- now ;;
  ids <- gets (fun w => map FlagStack.flag_id (flag_stack w)) ;;
  id <- new_rowid ids ;;
  modify (with_flag_stack (fun rows => rows ++ [FlagStack.Row id "ignore" t])).

(** [INSERT INTO flag_stack (flag_id, flag, timestamp) VALUES (?, ?, ?)]:
    the primary key rejects an id already in the table. *)
Definition insert_flag (id : Z) (name : string) (t : Time) : M unit :=
  ids <- gets (fun w => map FlagStack.flag_id (flag_stack w)) ;;
  if bool_decide (id ∈ ids) then raise IntegrityError
  else modify (with_flag_stack (fun rows => rows ++ [FlagStack.Row id name t])).

Definition gdbus_notify (notification_id score : Z) (play_probability : num)
  : list string :=
  ["gdbus"; "call"; "--session"; "--dest"; "org.freedesktop.Notifications";
   "--object-path"; "/org/freedesktop/Notifications";
   "--method"; "org.freedesktop.Notifications.Notify";
   "weighted_shuffle";
   py_str_int notification_id;
   "audio-headphones";
   String.append "Upvoted - " (String.append (py_str_int score) " score");
   String.append (format_2f play_probability) "% chance of playing";
   "[]"; "{}"; "5000"].

(** Lines 273-276: replace the remembered notification handle. *)
Definition remember_notification (notification_id new_notification_id : Z) : M unit :=
  if bool_decide (notification_id = new_notification_id) then ret tt
  else
    modify (with_flag_stack (delete_flag notification_id)) ;;;
    new_id <- bind_int new_notification_id ;;
    modify (with_flag_stack (delete_flag new_id)) ;;;
    t <- now ;;
    insert_flag new_id "notification_id" t.

Definition score_command (argv : list string) : M unit :=
  score_increment <- (s <- index argv 2 ;; int_of s) ;;
  state <- get_cmus_current_state ;;
  song_path <- getitem state "file" ;;
  score <- update_score song_path score_increment ;;
  (* Send notification *)
  chance <- get_playing_chance score ;;
  let play_probability := num_mul chance (num_of_Z 100) in
  notifications <- gets (fun w => latest FlagStack.timestamp
                                         (flags_named "notification_id" (flag_stack w))) ;;
  let notification_id :=
    match notifications with
    | Some (_, f) => FlagStack.flag_id f
    | None => 0
    end in
  output <- check_output (gdbus_notify notification_id score play_probability) ;;
  new_notification_id <-
    (field <- index (py_split space output) 1 ;;
     int_of (hd EmptyString (py_split comma field))) ;;
  remember_notification notification_id new_notification_id.

Definition main_body (argv : list string) : M unit :=
  command <- index argv 1 ;;
  if bool_decide (command = "previous") then
    push_ignore_flag ;;;
    handle_previous
  else if bool_decide (command = "score") then
    score_command argv
  else
    cmus_state <- get_cmus_current_state ;;
    handle_state_change cmus_state ;;;
    log LogSeparator.

(** [main]: [argv] is [sys.argv], the script name first.  Any exception is
    written to the log and raised again. *)
Definition main (argv : list string) : M unit :=
  fun w =>
    match main_body argv w with
    | (Ok tt, w') => (Ok tt, w')
    | (Raise e, w') => (Raise e, snd (log (LogTraceback e) w'))
    end.

End Model.

(** ** Vocabulary of the statements *)

(** The ScoreRecord of a track, if it has one. *)
Definition stored_row (p : string) (rows : list SongScores.row) : option SongScores.row :=
  head (scores_of p rows).

Definition stored_score (p : string) (rows : list SongScores.row) : option Z :=
  SongScores.score <$> stored_row p rows.

Definition in_bounds (s : Z) : Prop := MIN_SCORE <= s <= MAX_SCORE.

(** Every stored score lies within the configured bounds. *)
Definition all_bounded (rows : list SongScores.row) : Prop :=
  Forall (fun r => in_bounds (SongScores.score r)) rows.

(** How many flags with a given tag are pending. *)
Definition count_flags (name : string) (rows : list FlagStack.row) : nat :=
  length (flags_named name rows).

(** The ignore flag the handler would consume, if one is pending. *)
Definition pending_ignore (rows : list FlagStack.row) : option FlagStack.row :=
  snd <$> latest FlagStack.timestamp (flags_named "ignore" rows).

(** Every entry of the history is older than [t]. *)
Definition history_older_than (t : Time) (rows : list QueueHistory.row) : Prop :=
  Forall (fun r => QueueHistory.timestamp r < t) rows.

(** The entry on top of the history stack. *)
Definition history_top (rows : list QueueHistory.row) : option QueueHistory.row :=
  snd <$> latest QueueHistory.timestamp rows.

Section Observers.
Context `{RT : Runtime}.

(** A snapshot as the handler needs it: the four keys are present and the
    two numeric ones are numerals. *)
Definition well_formed (new_state : gmap string string)
           (path status : string) (position duration : Z) : Prop :=
  new_state !! "file" = Some path /\
  new_state !! "status" = Some status /\
  (exists s, new_state !! "position" = Some s /\ py_int s = Some position) /\
  (exists s, new_state !! "duration" = Some s /\ py_int s = Some duration).

Definition ledger_empty (w : World) : Prop :=
  flag_stack w = [] /\ queue_history w = [] /\ state_changes w = [].

(** States the installation can be in: start from an empty ledger, run the
    script any number of times with any arguments, and let the outside
    world change in between. *)
Inductive reachable : World -> Prop :=
| reach_start w : ledger_empty w -> reachable w
| reach_main argv w : reachable w -> reachable (snd (main argv w))
| reach_env e w : reachable w -> reachable (with_env e w).

(** [m] keeps [P] true, whether it returns or raises. *)
Definition preserves {A} (P : World -> Prop) (m : M A) : Prop :=
  forall w, P w -> P (snd (m w)).

(** The clock reading taken for a row inserted into [state_changes] is
    later than every timestamp already in the table. *)
Definition later_than_all (t : Time) (rows : list StateChanges.row) : Prop :=
  Forall (fun r => StateChanges.timestamp r < t) rows.

(** The remainder [r] the selector starts its scan with:
    [random.uniform(0, total)], that is [0 + (total - 0) * random()]. *)
Definition first_draw (w : World) : num :=
  let total := total_weight (order_by_score_desc (song_scores w)) in
  num_add (num_of_Z 0)
          (num_mul (num_sub total (num_of_Z 0)) (fst (random_random (env w)))).

(** [nid] is the handle the score command reads from the flag stack. *)
Definition remembered_handle (nid : Z) (rows : list FlagStack.row) : Prop :=
  nid = match latest FlagStack.timestamp (flags_named "notification_id" rows) with
        | Some (_, f) => FlagStack.flag_id f
        | None => 0
        end.

(** From a state where [Q] holds, [m] ends in a state where [P] holds. *)
Definition establishes {A} (Q P : World -> Prop) (m : M A) : Prop :=
  forall w, Q w -> P (snd (m w)).

(** At most one notification flag is pending. *)
Definition one_notification (w : World) : Prop :=
  (count_flags "notification_id" (flag_stack w) <= 1)%nat.

(** *** The elementary updates of a run

    Everything the script does to its state is one of these updates.  With
    [scoring] false the updates reserved to the [score] command are ruled
    out: changing a stored score, writing a notification flag and deleting
    a flag by an id that was not read from an ignore flag. *)
Inductive step (scoring : bool) : World -> World -> Prop :=
| step_env e w :
    step scoring w (with_env e w)
| step_log t message w :
    step scoring w (with_log_file (fun l => l ++ [(t, message)]) w)
| step_call argv w :
    step scoring w (with_calls (fun c => c ++ [argv]) w)
| step_new_song path t w :
    stored_score path (song_scores w) = None ->
    step scoring w
         (with_song_scores (fun rows => rows ++ [SongScores.Row path DEFAULT_SCORE t]) w)
| step_rescore path increment score t w :
    scoring = true ->
    stored_score path (song_scores w) = Some score ->
    step scoring w
         (with_song_scores (set_score path (bounded_add score increment) t) w)
| step_snapshot row w :
    StateChanges.state_id row ∉ map StateChanges.state_id (state_changes w) ->
    step scoring w (with_state_changes (fun rows => rows ++ [row]) w)
| step_history_push row w :
    step scoring w (with_queue_history (fun rows => rows ++ [row]) w)
| step_history_pop w :
    step scoring w (with_queue_history (delete_latest QueueHistory.timestamp) w)
| step_consume_ignore f w :
    pending_ignore (flag_stack w) = Some f ->
    step scoring w (with_flag_stack (delete_flag (FlagStack.flag_id f)) w)
| step_push_ignore id t w :
    id ∉ map FlagStack.flag_id (flag_stack w) ->
    step scoring w
         (with_flag_stack (fun rows => rows ++ [FlagStack.Row id "ignore" t]) w)
| step_forget_handle id w :
    scoring = true ->
    step scoring w (with_flag_stack (delete_flag id) w)
| step_remember_handle id t w :
    scoring = true ->
    id ∉ map FlagStack.flag_id (flag_stack w) ->
    step scoring w
         (with_flag_stack (fun rows => rows ++ [FlagStack.Row id "notification_id" t]) w).

(** A finite sequence of elementary updates. *)
Definition steps (scoring : bool) : World -> World -> Prop := rtc (step scoring).

(** Whether it returns or raises, [m] moves the state along [R]. *)
Definition runs {A} (R : World -> World -> Prop) (m : M A) : Prop :=
  forall w, R w (snd (m w)).

(** The command line selects the [score] command. *)
Definition is_score_command (argv : list string) : bool :=
  bool_decide (argv !! 1%nat = Some "score").

(** The primary keys of the three keyed tables hold no duplicate. *)
Definition keys_unique (w : World) : Prop :=
  NoDup (map SongScores.path (song_scores w)) /\
  NoDup (map FlagStack.flag_id (flag_stack w)) /\
  NoDup (map StateChanges.state_id (state_changes w)).

End Observers.

(** ** A scripted runtime, to run the model on concrete inputs *)

Module Scripted.

(** Exact rationals stand in for Python numbers. *)
Definition two_digits (n : Z) : string :=
  String.append (py_str_int (n / 10)) (py_str_int (n mod 10)).

Definition Q_format_2f (q : Q) : string :=
  let hundredths := Qfloor (Qplus (Qmult q (100 # 1)) (1 # 2)) in
  String.append (py_str_int (hundredths / 100))
                (String.append "." (two_digits (hundredths mod 100))).

#[export] Instance Q_num : PyNum := {|
  num := Q;
  num_of_Z := inject_Z;
  num_pow2 := Qpower (2 # 1);
  num_add := Qplus;
  num_sub := Qminus;
  num_mul := Qmult;
  num_div := fun a b => if Qeq_bool b (0 # 1) then None else Some (Qdiv a b);
  num_leb := Qle_bool;
  num_ltb := fun a b => negb (Qle_bool b a);
  DISABLE_WEIGHTED_SHUFFLE_THRESHOLD := 3 # 10;
  format_2f := Q_format_2f
|}.

(** Decimal numerals with an optional minus sign. *)
Fixpoint digits (s : string) (acc : Z) : option Z :=
  match s with
  | EmptyString => Some acc
  | String c s' =>
      let n := Z.of_nat (nat_of_ascii c) in
      if (48 <=? n) && (n <=? 57) then digits s' (10 * acc + (n - 48)) else None
  end.

Definition decimal (s : string) : option Z :=
  match s with
  | EmptyString => None
  | String "-" EmptyString => None
  | String "-" s' => Z.opp <$> digits s' 0
  | _ => digits s 0
  end.

(** The clock ticks once per reading; child processes answer from a fixed
    table; the random source always yields the same draw. *)
Record script := Script {
  clock : Z;
  replies : list string -> option string;
  draw : Q;
  pick : nat
}.

#[export] Instance runtime : Runtime := {|
  Env := script;
  datetime_now := fun e => (clock e, Script (clock e + 1) (replies e) (draw e) (pick e));
  run_process := fun argv e => (replies e argv, e);
  random_random := fun e => (draw e, e);
  randbelow := fun _ e => (pick e, e);
  py_int := decimal;
  sqlite_random_rowid := fun e => (None, e)
|}.

(** A player that accepts every command and reports nothing. *)
Definition silent : list string -> option string := fun _ => Some EmptyString.

(** Lines joined the way cmus prints them. *)
Fixpoint join_lines (lines : list string) : string :=
  match lines with
  | [] => EmptyString
  | [l] => l
  | l :: rest => String.append l (String newline (join_lines rest))
  end.

(** A player with a current track and a queue, its library being the two
    together; it accepts every command, and the notification service always
    answers with handle 7. *)
Definition player (current : string) (queue : list string)
  : list string -> option string :=
  fun argv =>
    if bool_decide (argv = ["cmus-remote"; "-Q"]) then
      Some (join_lines ["status playing"; String.append "file " current;
                        "duration 200"; "position 3"])
    else if bool_decide (argv = ["cmus-remote"; "-C"; "save -q -"]) then
      Some (join_lines queue)
    else if bool_decide (argv = ["cmus-remote"; "-C"; "save -l -"]) then
      Some (join_lines (current :: queue))
    else if bool_decide (hd EmptyString argv = "gdbus") then
      Some "(uint32 7,)"
    else Some EmptyString.

(** The snapshot [get_cmus_current_state] builds for such a player. *)
Definition snapshot (current : string) : gmap string string :=
  <["file" := current]>
    (<["status" := "playing"]> (<["position" := "3"]> (<["duration" := "200"]> ∅))).

(** Environments: a player on [/m/a.mp3] with one queued song; the same
    player with a queue of twenty; and a silent player next to a random
    source that answers 2, outside the unit interval, which is what it
    takes to drive the selector past the end of its scan in exact
    arithmetic. *)
Definition quiet : script := Script 100 (player "/m/a.mp3" ["/m/b.mp3"]) (0 # 1) 0.
Definition busy : script := Script 100 (player "/m/a.mp3" (repeat "/m/b.mp3" 20)) (0 # 1) 0.
Definition overshoot : script := Script 100 silent (2 # 1) 0.

(** The player of [quiet] next to a random source that answers one half, so
    that the handler takes the weighted path. *)
Definition weighted : script := Script 100 (player "/m/a.mp3" ["/m/b.mp3"]) (1 # 2) 0.

(** A player on [/m/b.mp3] whose queue already holds [/m/a.mp3]. *)
Definition crowded : script := Script 100 (player "/m/b.mp3" ["/m/a.mp3"]) (1 # 2) 0.

(** A player that reports its state and rejects every command. *)
Definition stubborn : script :=
  Script 100
         (fun argv => if bool_decide (argv = ["cmus-remote"; "-Q"])
                      then player "/m/a.mp3" [] argv else None)
         (0 # 1) 0.

(** A history of one entry. *)
Definition played (e : script) : World :=
  mkWorld [] [] [QueueHistory.Row (Some "/m/z.mp3") 5] [] [] [] e.

(** A flag stack that remembers notification handle 7. *)
Definition notified (e : script) : World :=
  mkWorld [] [FlagStack.Row 7 "notification_id" 8] [] [] [] [] e.

(** The weights of the songs, added up. *)
Definition weight_sum (songs : list SongScores.row) : Q :=
  fold_right (fun song acc => Qplus (Qpower (2 # 1) (SongScores.score song)) acc)
             (0 # 1) songs.

(** A player on [/m/b.mp3] whose clock is ahead of the other players'. *)
Definition late : script := Script 500 (player "/m/b.mp3" ["/m/c.mp3"]) (0 # 1) 0.

(** U+00A0, the no-break space, in UTF-8. *)
Definition nbsp : string :=
  String (ascii_of_nat 194) (String (ascii_of_nat 160) EmptyString).

(** The script run once, for the state it leaves behind. *)
Definition run (argv : list string) (w : World) : World := snd (main argv w).

(** A fresh installation: all four tables empty. *)
Definition fresh (e : script) : World :=
  mkWorld [] [] [] [] [] [] e.

(** One scored song, at the upper bound. *)
Definition one_song (e : script) : World :=
  mkWorld [SongScores.Row "/m/a.mp3" 15 0] [] [] [] [] [] e.

(** [/m/a.mp3] was the last song seen, and an ignore flag is pending. *)
Definition suppressed (e : script) : World :=
  mkWorld [] [FlagStack.Row 1 "ignore" 6] []
          [StateChanges.Row 1 "/m/a.mp3" "playing" 0 200 5] [] [] e.


End Scripted.

(** * Properties *)

(** ** Facts about the SQL building blocks *)

Lemma latest_None {A} (ts : A -> Time) rows : latest ts rows = None <-> rows = [].
Proof.
  destruct rows as [|r rest]; simpl; [tauto|].
  split; [|discriminate].
  destruct (latest ts rest) as [[i r']|]; [destruct (ts r <? ts r')|]; discriminate.
Qed.

Lemma latest_Some {A} (ts : A -> Time) rows i r :
  latest ts rows = Some (i, r) ->
  rows !! i = Some r /\ Forall (fun r' => ts r' <= ts r) rows.
Proof.
  revert i r. induction rows as [|x rest IH]; intros i r; simpl; [discriminate|].
  destruct (latest ts rest) as [[j r']|] eqn:E.
  - destruct (IH j r' eq_refl) as [Hl Hmax].
    destruct (Z.ltb_spec (ts x) (ts r')); intros [= <- <-].
    + split; [exact Hl|]. constructor; [lia | exact Hmax].
    + split; [reflexivity|]. constructor; [lia|].
      eapply Forall_impl; [exact Hmax|]. simpl. intros; lia.
  - intros [= <- <-]. apply latest_None in E. subst rest.
    split; [reflexivity|]. repeat constructor. lia.
Qed.

Lemma delete_latest_Some {A} (ts : A -> Time) rows i r :
  latest ts rows = Some (i, r) -> delete_latest ts rows = delete i rows.
Proof. intros Hl. unfold delete_latest. rewrite Hl. reflexivity. Qed.

(** A row stamped later than all others is the latest one. *)
Lemma latest_snoc_later {A} (ts : A -> Time) rows r :
  Forall (fun r' => ts r' < ts r) rows ->
  latest ts (rows ++ [r]) = Some (length rows, r).
Proof.
  induction 1 as [|x rest Hx Hrest IH]; simpl; [reflexivity|].
  rewrite IH. destruct (Z.ltb_spec (ts x) (ts r)); [reflexivity | lia].
Qed.

Lemma scores_of_snoc_other p r rows :
  SongScores.path r = p -> scores_of p (rows ++ [r]) = scores_of p rows ++ [r].
Proof.
  intros Hp. unfold scores_of. rewrite filter_app. f_equal.
  rewrite filter_cons. simpl. rewrite decide_True by exact Hp. reflexivity.
Qed.

Lemma scores_of_set_score p s t rows :
  scores_of p (set_score p s t rows) =
  map (fun _ => SongScores.Row p s t) (scores_of p rows).
Proof.
  unfold scores_of, set_score. induction rows as [|r rest IH]; [reflexivity|].
  simpl. rewrite !filter_cons. case_bool_decide as Hp; simpl.
  - rewrite !decide_True by done. simpl. congruence.
  - rewrite !decide_False by done. exact IH.
Qed.

Lemma all_bounded_set_score p s t rows :
  in_bounds s -> all_bounded rows -> all_bounded (set_score p s t rows).
Proof.
  intros Hs. unfold all_bounded, set_score. induction 1; simpl; constructor; auto.
  case_bool_decide; simpl; auto.
Qed.

Lemma all_bounded_snoc r rows :
  in_bounds (SongScores.score r) -> all_bounded rows -> all_bounded (rows ++ [r]).
Proof. intros. apply Forall_app. split; [assumption | constructor; [assumption | constructor]]. Qed.

Lemma stored_score_bounded p rows s :
  all_bounded rows -> stored_score p rows = Some s -> in_bounds s.
Proof.
  unfold stored_score, stored_row, all_bounded. intros Hall Hs.
  destruct (scores_of p rows) as [|r rest] eqn:E; [discriminate|].
  injection Hs as <-.
  assert (Hin : r ∈ scores_of p rows) by (rewrite E; left).
  apply list_elem_of_filter in Hin as [_ Hin].
  rewrite Forall_forall in Hall. apply Hall. exact Hin.
Qed.

Lemma default_in_bounds : in_bounds DEFAULT_SCORE.
Proof. unfold in_bounds, DEFAULT_SCORE, MIN_SCORE, MAX_SCORE. lia. Qed.

Lemma bounded_add_in_bounds score increment :
  in_bounds score -> in_bounds (bounded_add score increment).
Proof.
  unfold bounded_add, in_bounds. intros H.
  destruct (Z.leb_spec MIN_SCORE (score + increment));
    destruct (Z.leb_spec (score + increment) MAX_SCORE); simpl; lia.
Qed.

Lemma scores_of_snoc_ne p r rows :
  SongScores.path r <> p -> scores_of p (rows ++ [r]) = scores_of p rows.
Proof.
  intros Hp. unfold scores_of. rewrite filter_app, filter_cons.
  rewrite decide_False by exact Hp. simpl. apply app_nil_r.
Qed.

Lemma scores_of_set_score_ne p q s t rows :
  q <> p -> scores_of q (set_score p s t rows) = scores_of q rows.
Proof.
  intros Hne. unfold scores_of, set_score. induction rows as [|r rest IH]; [reflexivity|].
  simpl. rewrite !filter_cons. case_bool_decide as Hp; simpl.
  - rewrite !decide_False by congruence. exact IH.
  - destruct (decide (SongScores.path r = q)); congruence.
Qed.

Lemma bounded_add_decide score increment :
  bounded_add score increment =
  if decide (-1 <= score + increment <= 15) then score + increment else score.
Proof.
  unfold bounded_add, MIN_SCORE, MAX_SCORE.
  destruct (Z.leb_spec (-1) (score + increment));
    destruct (Z.leb_spec (score + increment) 15); simpl;
    destruct (decide _); try reflexivity; lia.
Qed.

Lemma insert_by_score_perm r sorted : insert_by_score r sorted ≡ₚ r :: sorted.
Proof.
  induction sorted as [|x xs IH]; simpl; [reflexivity|].
  destruct (SongScores.score x <=? SongScores.score r); [reflexivity|].
  rewrite IH. apply Permutation_swap.
Qed.

Lemma order_by_score_desc_perm rows : order_by_score_desc rows ≡ₚ rows.
Proof.
  unfold order_by_score_desc. induction rows as [|r rest IH]; simpl; [reflexivity|].
  rewrite insert_by_score_perm, IH. reflexivity.
Qed.

Lemma flags_named_snoc name r rows :
  flags_named name (rows ++ [r]) =
  flags_named name rows ++ (if decide (FlagStack.flag r = name) then [r] else []).
Proof.
  unfold flags_named. rewrite filter_app, filter_cons, filter_nil. reflexivity.
Qed.

Lemma flags_named_delete_flag name id rows :
  flags_named name (delete_flag id rows) = delete_flag id (flags_named name rows).
Proof.
  unfold flags_named, delete_flag. rewrite !list_filter_filter.
  apply list_filter_iff. intros r. tauto.
Qed.

Lemma count_flags_delete_flag name id rows :
  (count_flags name (delete_flag id rows) <= count_flags name rows)%nat.
Proof.
  unfold count_flags. rewrite flags_named_delete_flag.
  unfold delete_flag. apply length_filter.
Qed.

(** Deleting the remembered handle leaves no notification flag, provided
    there was at most one. *)
Lemma delete_remembered_handle nid rows :
  (count_flags "notification_id" rows <= 1)%nat ->
  nid = match latest FlagStack.timestamp (flags_named "notification_id" rows) with
        | Some (_, f) => FlagStack.flag_id f
        | None => 0
        end ->
  flags_named "notification_id" (delete_flag nid rows) = [].
Proof.
  unfold count_flags. rewrite flags_named_delete_flag.
  destruct (flags_named "notification_id" rows) as [|f [|g rest]];
    simpl; intros Hcount Hnid; [reflexivity| |lia].
  subst nid. unfold delete_flag. rewrite filter_cons, filter_nil.
  rewrite decide_False by (intros Hne; apply Hne; reflexivity). reflexivity.
Qed.

Lemma foldr_max_upper i rest x : x ∈ i :: rest -> x <= foldr Z.max i rest.
Proof.
  induction rest as [|y rest IH]; simpl.
  - intros Hx. apply list_elem_of_singleton in Hx. lia.
  - intros Hx. apply elem_of_cons in Hx as [->|Hx]; [|apply elem_of_cons in Hx as [->|Hx]].
    + assert (i <= foldr Z.max i rest) by (apply IH; left). lia.
    + lia.
    + assert (x <= foldr Z.max i rest) by (apply IH; right; exact Hx). lia.
Qed.

(** The rowid SQLite computes is not in use. *)
Lemma next_rowid_fresh ids id : next_rowid ids = Some id -> id ∉ ids.
Proof.
  unfold next_rowid. destruct ids as [|i rest].
  - intros _. apply not_elem_of_nil.
  - destruct (foldr Z.max i rest <? INT64_MAX); [|discriminate].
    intros [= <-] Hin. apply foldr_max_upper in Hin. lia.
Qed.

(** ** Facts about keys *)

Lemma NoDup_map_snoc {A B} (f : A -> B) rows r :
  f r ∉ map f rows -> NoDup (map f rows) -> NoDup (map f (rows ++ [r])).
Proof.
  intros Hfresh Hrows. rewrite map_app. apply NoDup_app. split; [exact Hrows|].
  split; [|apply NoDup_singleton].
  intros x Hx Hr. apply list_elem_of_singleton in Hr. subst x. exact (Hfresh Hx).
Qed.

Lemma elem_of_map_filter {A B} (f : A -> B) (P : A -> Prop)
      `{!forall x, Decision (P x)} rows y :
  y ∈ map f (filter P rows) -> y ∈ map f rows.
Proof.
  induction rows as [|x rest IH]; [exact id|].
  rewrite filter_cons. destruct (decide (P x)); simpl.
  - intros Hy. apply elem_of_cons in Hy as [->|Hy]; [left | right; exact (IH Hy)].
  - intros Hy. right. exact (IH Hy).
Qed.

Lemma NoDup_map_filter {A B} (f : A -> B) (P : A -> Prop)
      `{!forall x, Decision (P x)} rows :
  NoDup (map f rows) -> NoDup (map f (filter P rows)).
Proof.
  induction rows as [|x rest IH]; [exact id|].
  simpl. intros Hrows. apply NoDup_cons in Hrows as [Hx Hrest].
  rewrite filter_cons. destruct (decide (P x)); simpl; [|exact (IH Hrest)].
  apply NoDup_cons. split; [|exact (IH Hrest)].
  intros Hin. apply Hx. eapply elem_of_map_filter. exact Hin.
Qed.

(** Two rows of a table with the same key are the same row. *)
Lemma NoDup_map_same_key {A B} (f : A -> B) rows x y :
  NoDup (map f rows) -> x ∈ rows -> y ∈ rows -> f x = f y -> x = y.
Proof.
  induction rows as [|r rest IH]; simpl; intros Hrows Hx Hy Hxy.
  - apply elem_of_nil in Hx. destruct Hx.
  - apply NoDup_cons in Hrows as [Hr Hrest].
    assert (Hmap : forall z, z ∈ rest -> f z ∈ map f rest).
    { intros z Hz. clear -Hz. induction Hz; simpl; [left | right; assumption]. }
    apply elem_of_cons in Hx as [->|Hx]; apply elem_of_cons in Hy as [->|Hy].
    + reflexivity.
    + destruct Hr. rewrite Hxy. apply Hmap, Hy.
    + destruct Hr. rewrite <- Hxy. apply Hmap, Hx.
    + apply IH; assumption.
Qed.

Lemma stored_score_None p rows :
  stored_score p rows = None -> p ∉ map SongScores.path rows.
Proof.
  unfold stored_score, stored_row, scores_of.
  induction rows as [|r rest IH]; simpl; [intros _; apply not_elem_of_nil|].
  rewrite filter_cons. destruct (decide (SongScores.path r = p)) as [Hp|Hp]; simpl;
    [discriminate|].
  intros Hnone Hin. apply elem_of_cons in Hin as [Hin|Hin]; [congruence|].
  exact (IH Hnone Hin).
Qed.

Lemma map_path_set_score p s t rows :
  map SongScores.path (set_score p s t rows) = map SongScores.path rows.
Proof.
  unfold set_score. induction rows as [|r rest IH]; simpl; [reflexivity|].
  rewrite IH. case_bool_decide as Hp; simpl; congruence.
Qed.

Lemma stored_row_snoc p r rows row :
  stored_row p rows = Some row -> stored_row p (rows ++ [r]) = Some row.
Proof.
  unfold stored_row, scores_of. rewrite filter_app.
  destruct (filter _ rows); simpl; [discriminate | exact id].
Qed.

Lemma stored_score_set_score p q s t rows :
  is_Some (stored_score q rows) -> is_Some (stored_score q (set_score p s t rows)).
Proof.
  unfold stored_score, stored_row. destruct (decide (q = p)) as [->|Hne].
  - rewrite scores_of_set_score. destruct (scores_of p rows); simpl; [exact id|].
    intros _. eexists. reflexivity.
  - rewrite scores_of_set_score_ne by exact Hne. exact id.
Qed.

(** Deleting a flag by the id of a flag of another tag leaves the flags of
    this tag as they are, when ids are unique. *)
Lemma flags_named_delete_other name f rows :
  NoDup (map FlagStack.flag_id rows) -> f ∈ rows -> FlagStack.flag f <> name ->
  flags_named name (delete_flag (FlagStack.flag_id f) rows) = flags_named name rows.
Proof.
  intros Hrows Hf Hname. unfold flags_named, delete_flag.
  assert (Hkeep : forall g, g ∈ rows -> FlagStack.flag g = name ->
                            FlagStack.flag_id g <> FlagStack.flag_id f).
  { intros g Hg Hflag Hid. apply Hname. rewrite <- Hflag. f_equal.
    symmetry. eapply NoDup_map_same_key; eassumption. }
  clear Hrows Hf. induction rows as [|r rest IH]; [reflexivity|].
  assert (IH' := IH (fun g Hg => Hkeep g (proj2 (elem_of_cons _ _ _) (or_intror Hg)))).
  assert (Hr := Hkeep r (proj2 (elem_of_cons _ _ _) (or_introl eq_refl))).
  rewrite (filter_cons _ r rest).
  destruct (decide (FlagStack.flag_id r <> FlagStack.flag_id f)) as [Hid|Hid].
  - rewrite !filter_cons. destruct (decide (FlagStack.flag r = name)); congruence.
  - rewrite filter_cons. destruct (decide (FlagStack.flag r = name)) as [Hflag|Hflag];
      [destruct (Hid (Hr Hflag)) | exact IH'].
Qed.

Lemma scan_songs_elem_of `{PyNum} r songs song :
  scan_songs r songs = Some song -> song ∈ songs.
Proof.
  revert r. induction songs as [|x rest IH]; simpl; intros r; [discriminate|].
  destruct (num_leb _ _).
  - intros [= <-]. left.
  - intros Hscan. right. exact (IH _ Hscan).
Qed.

Lemma nth_mod_elem_of {A} (k : nat) (x : A) rest :
  nth (k mod length (x :: rest)) (x :: rest) x ∈ x :: rest.
Proof.
  apply list_elem_of_In, nth_In, Nat.mod_upper_bound. discriminate.
Qed.

(** ** Facts about the player's report *)

(** A word without a space that starts a line also starts the part of the
    line before its first space. *)
Lemma prefix_before_space p line key value :
  py_split1 space p = None ->
  String.prefix p line = true ->
  py_split1 space line = Some (key, value) ->
  String.prefix p key = true.
Proof.
  revert line key. induction p as [|c p IH]; intros line key Hword Hprefix Hsplit.
  - destruct key; reflexivity.
  - destruct line as [|c' line]; [discriminate|]. simpl in *.
    destruct (ascii_dec c c') as [<-|]; [|discriminate].
    destruct (Ascii.eqb c space); [discriminate|].
    destruct (py_split1 space p) as [[]|] eqn:Hp; [discriminate|].
    destruct (py_split1 space line) as [[k v]|] eqn:Hline; [|discriminate].
    injection Hsplit as <- <-. simpl.
    destruct (ascii_dec c c); [|congruence].
    apply (IH line k eq_refl Hprefix Hline).
Qed.

Lemma startswith_any_key line key value :
  startswith_any ["status"; "file"; "position"; "duration"] line = true ->
  py_split1 space line = Some (key, value) ->
  startswith_any ["status"; "file"; "position"; "duration"] key = true.
Proof.
  unfold startswith_any. cbn [existsb]. rewrite !orb_true_iff.
  intros Hline Hsplit.
  destruct Hline as [H|[H|[H|[H|H]]]]; [| | | |discriminate].
  - left. exact (prefix_before_space "status" _ _ _ eq_refl H Hsplit).
  - right; left. exact (prefix_before_space "file" _ _ _ eq_refl H Hsplit).
  - do 2 right; left. exact (prefix_before_space "position" _ _ _ eq_refl H Hsplit).
  - do 3 right; left. exact (prefix_before_space "duration" _ _ _ eq_refl H Hsplit).
Qed.

Lemma parse_status_entries lines status state key value :
  parse_status lines status = Ok state ->
  state !! key = Some value ->
  status !! key = Some value \/
  exists line v,
    line ∈ lines /\
    startswith_any ["status"; "file"; "position"; "duration"] line = true /\
    py_split1 space line = Some (key, v) /\ value = py_strip v.
Proof.
  revert status. induction lines as [|line rest IH]; intros status;
    cbn [parse_status].
  - intros [= <-] Hkey. left. exact Hkey.
  - destruct (startswith_any ["status"; "file"; "position"; "duration"] line)
      eqn:Hstarts.
    + destruct (py_split1 space line) as [[k v]|] eqn:Hsplit; [|discriminate].
      intros Hparse Hkey. destruct (IH _ Hparse Hkey) as [Hnew|Hrest].
      * destruct (decide (k = key)) as [->|Hne].
        -- rewrite lookup_insert_eq in Hnew. injection Hnew as <-.
           right. exists line, v. split; [left|]. split; [exact Hstarts|].
           split; [exact Hsplit | reflexivity].
        -- rewrite lookup_insert_ne in Hnew by exact Hne. left. exact Hnew.
      * right. destruct Hrest as (l & v' & Hin & Hl). exists l, v'.
        split; [right; exact Hin | exact Hl].
    + intros Hparse Hkey. destruct (IH _ Hparse Hkey) as [Hold|Hrest];
        [left; exact Hold|].
      right. destruct Hrest as (l & v' & Hin & Hl). exists l, v'.
      split; [right; exact Hin | exact Hl].
Qed.

(** X16: the loop of [get_cmus_current_state] fails exactly when some line
    that starts with one of the four words holds no space, and then with
    [ValueError] (the unpacking of a one-element split). *)
Theorem parse_status_raises_iff lines status e :
  parse_status lines status = Raise e <->
  e = ValueError /\
  exists line,
    line ∈ lines /\
    startswith_any ["status"; "file"; "position"; "duration"] line = true /\
    py_split1 space line = None.
Proof.
  revert status. induction lines as [|line rest IH]; intros status;
    cbn [parse_status].
  - split; [discriminate|]. intros (_ & line & Hin & _).
    apply elem_of_nil in Hin. destruct Hin.
  - destruct (startswith_any ["status"; "file"; "position"; "duration"] line)
      eqn:Hstarts;
      [destruct (py_split1 space line) as [[k v]|] eqn:Hsplit|].
    + rewrite IH. split; intros (He & l & Hin & Hl & Hs); (split; [exact He|]);
        exists l.
      * split; [right; exact Hin | split; assumption].
      * apply elem_of_cons in Hin as [->|Hin]; [congruence|].
        split; [exact Hin | split; assumption].
    + split.
      * intros [= <-]. split; [reflexivity|]. exists line.
        split; [left | split; assumption].
      * intros [-> _]. reflexivity.
    + rewrite IH. split; intros (He & l & Hin & Hl & Hs); (split; [exact He|]);
        exists l.
      * split; [right; exact Hin | split; assumption].
      * apply elem_of_cons in Hin as [->|Hin]; [congruence|].
        split; [exact Hin | split; assumption].
Qed.

(** X17: every entry of the state [get_cmus_current_state] builds comes
    from a line of the report: its key is the part of the line before the
    first space and starts with [status], [file], [position] or
    [duration]; its value is the rest of the line, stripped. *)
Theorem parse_status_sound lines state key value :
  parse_status lines ∅ = Ok state ->
  state !! key = Some value ->
  startswith_any ["status"; "file"; "position"; "duration"] key = true /\
  exists line v,
    line ∈ lines /\ py_split1 space line = Some (key, v) /\ value = py_strip v.
Proof.
  intros Hparse Hkey.
  destruct (parse_status_entries _ _ _ _ _ Hparse Hkey) as [Hempty|Hline].
  - rewrite lookup_empty in Hempty. discriminate.
  - destruct Hline as (line & v & Hin & Hstarts & Hsplit & Hvalue). split.
    + exact (startswith_any_key _ _ _ Hstarts Hsplit).
    + exists line, v. split; [exact Hin | split; assumption].
Qed.

Lemma delete_flag_not_elem_of id rows :
  id ∉ map FlagStack.flag_id (delete_flag id rows).
Proof.
  unfold delete_flag. induction rows as [|r rest IH]; [apply not_elem_of_nil|].
  rewrite filter_cons. destruct (decide (FlagStack.flag_id r <> id)) as [Hne|_];
    [|exact IH].
  simpl. intros Hin. apply elem_of_cons in Hin as [Heq|Hin];
    [exact (Hne (eq_sym Heq)) | exact (IH Hin)].
Qed.

Section Proofs.
Context `{RT : Runtime}.

#[local] Arguments String.append : simpl never.
#[local] Arguments delete_latest : simpl never.

(** ** Score store *)

(** What [get_score] does, in one equation. *)
Lemma get_score_run path w :
  get_score path w =
  match scores_of path (song_scores w) with
  | song :: _ => (Ok (SongScores.score song), w)
  | [] =>
      let e1 := snd (datetime_now (env w)) in
      (Ok DEFAULT_SCORE,
       mkWorld (song_scores w ++
                  [SongScores.Row path DEFAULT_SCORE (fst (datetime_now e1))])
               (flag_stack w) (queue_history w) (state_changes w)
               (log_file w ++ [(fst (datetime_now (env w)), LogNewSong path)])
               (calls w) (snd (datetime_now e1)))
  end.
Proof.
  unfold get_score, bind, gets. simpl.
  destruct (scores_of path (song_scores w)); reflexivity.
Qed.

(** After [get_score] the track has a record carrying the returned score. *)
Lemma get_score_post path w :
  exists current,
    fst (get_score path w) = Ok current /\
    current = default DEFAULT_SCORE (stored_score path (song_scores w)) /\
    stored_score path (song_scores (snd (get_score path w))) = Some current /\
    (all_bounded (song_scores w) ->
     in_bounds current /\ all_bounded (song_scores (snd (get_score path w)))).
Proof.
  rewrite get_score_run. unfold stored_score, stored_row.
  destruct (scores_of path (song_scores w)) as [|song rest] eqn:E; simpl.
  - exists DEFAULT_SCORE. split; [reflexivity|]. split; [reflexivity|]. split.
    + rewrite scores_of_snoc_other, E by reflexivity. reflexivity.
    + intros Hb. split; [apply default_in_bounds|].
      apply all_bounded_snoc; [apply default_in_bounds | assumption].
  - exists (SongScores.score song). split; [reflexivity|]. split; [reflexivity|]. split.
    + rewrite E. reflexivity.
    + intros Hb. split; [|assumption].
      eapply stored_score_bounded; [eassumption|].
      unfold stored_score, stored_row. rewrite E. reflexivity.
Qed.

(** A path that is not a key of the table selects no row. *)
Lemma scores_of_absent path rows :
  path ∉ map SongScores.path rows -> scores_of path rows = [].
Proof.
  unfold scores_of. induction rows as [|r rest IH]; simpl; intros Habsent;
    [reflexivity|].
  rewrite filter_cons. destruct (decide (SongScores.path r = path)) as [Hr|Hr].
  - destruct Habsent. rewrite <- Hr. left.
  - apply IH. intros Hin. apply Habsent. right. exact Hin.
Qed.

(** With unique paths, the rows a path selects are its one record. *)
Lemma scores_of_unique path row rows :
  NoDup (map SongScores.path rows) ->
  row ∈ rows -> SongScores.path row = path ->
  scores_of path rows = [row].
Proof.
  intros Hrows Hrow Hpath. subst path.
  induction rows as [|r rest IH]; [apply elem_of_nil in Hrow; destruct Hrow|].
  simpl in Hrows. apply NoDup_cons in Hrows as [Hr Hrest].
  assert (Hkey : forall x, x ∈ rest -> SongScores.path x ∈ map SongScores.path rest).
  { intros x Hx. clear -Hx. induction Hx; simpl; [left | right; assumption]. }
  unfold scores_of. rewrite filter_cons.
  apply elem_of_cons in Hrow as [->|Hrow].
  - rewrite decide_True by reflexivity. f_equal.
    apply scores_of_absent. exact Hr.
  - rewrite decide_False.
    + apply IH; assumption.
    + intros Hsame. apply Hr. rewrite Hsame. apply Hkey. exact Hrow.
Qed.

(** C9: for a track that has a record in [song_scores] (paths being the
    primary key, so unique), [get_score] returns the score of that record
    and changes nothing; for a track whose path is not in the table it
    logs the new song, appends a record with the default score 2 stamped
    with the current time, and returns 2. *)
Theorem get_score_existing_or_default path w :
  (forall row,
      NoDup (map SongScores.path (song_scores w)) ->
      row ∈ song_scores w ->
      SongScores.path row = path ->
      get_score path w = (Ok (SongScores.score row), w)) /\
  (path ∉ map SongScores.path (song_scores w) ->
   let e1 := snd (datetime_now (env w)) in
   let t := fst (datetime_now e1) in
   get_score path w =
     (Ok 2,
      mkWorld (song_scores w ++ [SongScores.Row path 2 t])
              (flag_stack w) (queue_history w) (state_changes w)
              (log_file w ++ [(fst (datetime_now (env w)), LogNewSong path)])
              (calls w) (snd (datetime_now e1)))).
Proof.
  split.
  - intros row Hkeys Hrow Hpath. rewrite get_score_run.
    rewrite (scores_of_unique path row _ Hkeys Hrow Hpath). reflexivity.
  - intros Habsent e1 t. rewrite get_score_run.
    rewrite (scores_of_absent _ _ Habsent). reflexivity.
Qed.

(** What [update_score] does after [get_score] has answered. *)
Lemma update_score_run path increment w :
  update_score path increment w =
  match get_score path w with
  | (Ok score, w1) =>
      let new_score := bounded_add score increment in
      let t := fst (datetime_now (env w1)) in
      let e2 := snd (datetime_now (env w1)) in
      (Ok new_score,
       mkWorld (set_score path new_score t (song_scores w1))
               (flag_stack w1) (queue_history w1) (state_changes w1)
               (log_file w1 ++ [(fst (datetime_now e2),
                                 LogUpdatedScore path score new_score)])
               (calls w1) (snd (datetime_now e2)))
  | (Raise e, w1) => (Raise e, w1)
  end.
Proof.
  unfold update_score, bind at 1.
  destruct (get_score path w) as [[score|e] w1]; reflexivity.
Qed.

Lemma get_score_keeps_bounds path :
  preserves (fun w => all_bounded (song_scores w)) (get_score path).
Proof.
  intros w Hb. destruct (get_score_post path w) as (cur & _ & _ & _ & Hbounds).
  apply Hbounds. exact Hb.
Qed.

Lemma update_score_keeps_bounds path increment :
  preserves (fun w => all_bounded (song_scores w)) (update_score path increment).
Proof.
  intros w Hb. rewrite update_score_run.
  destruct (get_score_post path w) as (cur & Hfst & _ & _ & Hbounds).
  destruct (Hbounds Hb) as [Hin Hb1].
  destruct (get_score path w) as [[score|e] w1]; simpl in *; [|exact Hb1].
  injection Hfst as ->.
  apply all_bounded_set_score; [apply bounded_add_in_bounds; exact Hin | exact Hb1].
Qed.

(** C1: with every stored score within the bounds, [update_score] adds the
    increment when the sum stays within [-1, 15] and keeps the current
    score otherwise; either way the record is stamped with the current
    time, the stored score is the returned one, and it is within bounds. *)
Theorem update_score_spec path increment w :
  all_bounded (song_scores w) ->
  let current := default DEFAULT_SCORE (stored_score path (song_scores w)) in
  let candidate := current + increment in
  let new_score :=
    if decide (-1 <= candidate <= 15) then candidate else current in
  let t := fst (datetime_now (env (snd (get_score path w)))) in
  let w' := snd (update_score path increment w) in
  fst (get_score path w) = Ok current /\
  fst (update_score path increment w) = Ok new_score /\
  stored_row path (song_scores w') = Some (SongScores.Row path new_score t) /\
  (forall other, other <> path ->
     stored_row other (song_scores w') = stored_row other (song_scores w)) /\
  in_bounds new_score /\
  all_bounded (song_scores w').
Proof.
  intros Hb current candidate new_score t w'.
  destruct (get_score_post path w) as (cur & Hfst & Hcur & Hstored & Hbounds).
  destruct (Hbounds Hb) as [Hin Hb1].
  assert (Hnew : bounded_add cur increment = new_score).
  { subst new_score candidate current. rewrite <- Hcur. apply bounded_add_decide. }
  assert (Hother : forall other, other <> path ->
            stored_row other (song_scores (snd (get_score path w))) =
            stored_row other (song_scores w)).
  { intros other Hne. rewrite get_score_run.
    destruct (scores_of path (song_scores w)); simpl; [|reflexivity].
    unfold stored_row. rewrite scores_of_snoc_ne by (simpl; congruence).
    reflexivity. }
  subst w' t. rewrite update_score_run.
  destruct (get_score path w) as [[score|e] w1]; simpl in *; [|discriminate].
  injection Hfst as ->. rewrite Hnew.
  split; [f_equal; exact Hcur|]. split; [reflexivity|]. split.
  { unfold stored_row. rewrite scores_of_set_score.
    unfold stored_score, stored_row in Hstored.
    destruct (scores_of path (song_scores w1)); [discriminate | reflexivity]. }
  split.
  { intros other Hne. rewrite <- (Hother other Hne).
    unfold stored_row. rewrite scores_of_set_score_ne by congruence. reflexivity. }
  assert (Hin' : in_bounds new_score)
    by (rewrite <- Hnew; apply bounded_add_in_bounds; exact Hin).
  split; [exact Hin'|]. apply all_bounded_set_score; assumption.
Qed.

(** ** Frame reasoning: what a computation leaves alone *)

Lemma preserves_ret {A} P (a : A) : preserves P (ret a).
Proof. intros w HP. exact HP. Qed.

Lemma preserves_raise {A} P e : preserves P (@raise _ _ A e).
Proof. intros w HP. exact HP. Qed.

Lemma preserves_gets {A} P (f : World -> A) : preserves P (gets f).
Proof. intros w HP. exact HP. Qed.

Lemma preserves_lift {A} P (r : Result A) : preserves P (lift r).
Proof. intros w HP. exact HP. Qed.

Lemma preserves_bind {A B} P (m : M A) (k : A -> M B) :
  preserves P m -> (forall a, preserves P (k a)) -> preserves P (bind m k).
Proof.
  intros Hm Hk w HP. unfold bind. specialize (Hm w HP).
  destruct (m w) as [[a|e] w1]; simpl in *; [apply Hk; exact Hm | exact Hm].
Qed.

(** After [gets], the continuation may rely on the value read. *)
Lemma preserves_gets_bind {A B} P (f : World -> A) (k : A -> M B) :
  (forall w, P w -> P (snd (k (f w) w))) -> preserves P (bind (gets f) k).
Proof. intros Hk w HP. unfold bind, gets. apply Hk. exact HP. Qed.

Lemma preserves_modify P (f : World -> World) :
  (forall w, P w -> P (f w)) -> preserves P (modify f).
Proof. intros Hf w HP. apply Hf. exact HP. Qed.

(** Two states with the same seven components are the same state. *)
Lemma world_ext w scores flags history states lines started e :
  song_scores w = scores -> flag_stack w = flags -> queue_history w = history ->
  state_changes w = states -> log_file w = lines -> calls w = started ->
  env w = e ->
  w = mkWorld scores flags history states lines started e.
Proof. destruct w; simpl; intros; subst; reflexivity. Qed.

Lemma bind_gets {A B} (f : World -> A) (k : A -> M B) w :
  bind (gets f) k w = k (f w) w.
Proof. reflexivity. Qed.

Lemma bind_ret {A B} (a : A) (k : A -> M B) w : bind (ret a) k w = k a w.
Proof. reflexivity. Qed.

Lemma bind_lift_Ok {A B} (a : A) (k : A -> M B) w : bind (lift (Ok a)) k w = k a w.
Proof. reflexivity. Qed.

Lemma bind_assoc {A B C} (m : M A) (k : A -> M B) (k' : B -> M C) w :
  bind (bind m k) k' w = bind m (fun a => bind (k a) k') w.
Proof. unfold bind. destruct (m w) as [[a|e] w1]; reflexivity. Qed.

Lemma bind_check_output_Ok {A} argv output (k : string -> M A) w :
  fst (run_process argv (env w)) = Some output ->
  bind (check_output argv) k w =
  k output (with_env (snd (run_process argv (env w)))
                     (with_calls (fun c => c ++ [argv]) w)).
Proof. intros Hout. unfold bind, check_output. cbv zeta. rewrite Hout. reflexivity. Qed.

Lemma bind_log {A} message (k : unit -> M A) w :
  bind (log message) k w =
  k tt (with_log_file (fun l => l ++ [(fst (datetime_now (env w)), message)])
                      (with_env (snd (datetime_now (env w))) w)).
Proof. reflexivity. Qed.

Lemma run_checked_run argv w :
  run_checked argv w =
  (match fst (run_process argv (env w)) with
   | Some _ => Ok tt
   | None => Raise CalledProcessError
   end,
   with_env (snd (run_process argv (env w))) (with_calls (fun c => c ++ [argv]) w)).
Proof.
  unfold run_checked, bind, check_output. cbv zeta.
  destruct (fst (run_process argv (env w))); reflexivity.
Qed.

Lemma bind_random {A} (k : num -> M A) w :
  bind random k w =
  k (fst (random_random (env w))) (with_env (snd (random_random (env w))) w).
Proof. reflexivity. Qed.

Lemma bind_choice_Some {A B} (seq : list A) x (k : A -> M B) w :
  seq !! (fst (randbelow (length seq) (env w)) mod length seq)%nat = Some x ->
  bind (choice seq) k w = k x (with_env (snd (randbelow (length seq) (env w))) w).
Proof.
  intros Hx. unfold bind, choice. destruct seq as [|y rest]; [discriminate|].
  cbv zeta. rewrite (nth_lookup_Some _ _ y x Hx). reflexivity.
Qed.

Lemma bind_now {A} (k : Time -> M A) w :
  bind now k w = k (fst (datetime_now (env w))) (with_env (snd (datetime_now (env w))) w).
Proof. reflexivity. Qed.

Lemma bind_modify {A} (f : World -> World) (k : unit -> M A) w :
  bind (modify f) k w = k tt (f w).
Proof. reflexivity. Qed.

Lemma establishes_bind {A B} (Q P : World -> Prop) (m : M A) (k : A -> M B) :
  (forall w, Q w -> P w) ->
  preserves Q m -> (forall a, establishes Q P (k a)) -> establishes Q P (bind m k).
Proof.
  intros HQP Hm Hk w HQ. unfold bind. specialize (Hm w HQ).
  destruct (m w) as [[a|e] w1]; simpl in *; [apply Hk; exact Hm | apply HQP; exact Hm].
Qed.

Section Frame.
(** [P] speaks about the tables only: it cannot tell apart two states
    that differ in the clock, the log or the list of child processes. *)
Variable P : World -> Prop.
Hypothesis P_env : forall e w, P w -> P (with_env e w).
Hypothesis P_log : forall f w, P w -> P (with_log_file f w).
Hypothesis P_calls : forall f w, P w -> P (with_calls f w).

Lemma preserves_now : preserves P now.
Proof. intros w HP. apply P_env. exact HP. Qed.

Lemma preserves_random : preserves P random.
Proof. intros w HP. apply P_env. exact HP. Qed.

Lemma preserves_log message : preserves P (log message).
Proof.
  unfold log. apply preserves_bind; [apply preserves_now|].
  intros t. apply preserves_modify. intros w. apply P_log.
Qed.

Lemma preserves_check_output argv : preserves P (check_output argv).
Proof.
  intros w HP. unfold check_output. cbv zeta.
  destruct (fst (run_process argv (env w))); simpl; apply P_env, P_calls, HP.
Qed.

Lemma preserves_run_checked argv : preserves P (run_checked argv).
Proof.
  unfold run_checked. apply preserves_bind; [apply preserves_check_output|].
  intros _. apply preserves_ret.
Qed.

Lemma preserves_uniform a b : preserves P (uniform a b).
Proof.
  unfold uniform. apply preserves_bind; [apply preserves_random|].
  intros u. apply preserves_ret.
Qed.

Lemma preserves_choice {A} (seq : list A) : preserves P (choice seq).
Proof.
  intros w HP. unfold choice. destruct seq; simpl; [exact HP | apply P_env, HP].
Qed.

Lemma preserves_new_rowid ids : preserves P (new_rowid ids).
Proof.
  intros w HP. unfold new_rowid. destruct (next_rowid ids); [exact HP|].
  cbv zeta.
  destruct (fst (sqlite_random_rowid (env w))) as [v|]; [|apply P_env, HP].
  destruct (bool_decide (v ∈ ids)); apply P_env, HP.
Qed.

Lemma preserves_bind_int z : preserves P (bind_int z).
Proof. unfold bind_int. destruct (fits_int64 z); intros w HP; exact HP. Qed.

Lemma preserves_getitem d key : preserves P (getitem d key).
Proof. unfold getitem. destruct (d !! key); intros w HP; exact HP. Qed.

Lemma preserves_int_of s : preserves P (int_of s).
Proof. unfold int_of. destruct (py_int s); intros w HP; exact HP. Qed.

Lemma preserves_index seq i : preserves P (index seq i).
Proof. unfold index. destruct (seq !! i); intros w HP; exact HP. Qed.

(** A [P] that does not look at the score table survives the two
    functions that write to it. *)
Lemma preserves_get_score_blind path :
  (forall f w, P w -> P (with_song_scores f w)) ->
  preserves P (get_score path).
Proof.
  intros P_scores.
  unfold get_score. apply preserves_gets_bind. intros w HP.
  destruct (scores_of path (song_scores w)) as [|song rest]; [|exact HP].
  revert w HP. apply preserves_bind; [apply preserves_log|].
  intros _. apply preserves_bind; [apply preserves_now|].
  intros t. apply preserves_bind; [apply preserves_modify; intros w; apply P_scores|].
  intros _. apply preserves_ret.
Qed.

Lemma preserves_update_score_blind path increment :
  (forall f w, P w -> P (with_song_scores f w)) ->
  preserves P (update_score path increment).
Proof.
  intros P_scores.
  unfold update_score.
  apply preserves_bind; [apply preserves_get_score_blind; exact P_scores|].
  intros score. apply preserves_bind; [apply preserves_now|].
  intros t. apply preserves_bind; [apply preserves_modify; intros w; apply P_scores|].
  intros _. apply preserves_bind; [apply preserves_log|].
  intros _. apply preserves_ret.
Qed.

(** From here on [P] is only required to survive [get_score]. *)
Hypothesis P_get_score : forall path, preserves P (get_score path).

Lemma preserves_get_weighted_shuffled_song : preserves P get_weighted_shuffled_song.
Proof.
  unfold get_weighted_shuffled_song. apply preserves_bind; [apply preserves_gets|].
  intros songs. apply preserves_bind; [apply preserves_uniform|].
  intros r. destruct (scan_songs r songs) as [song|].
  - apply preserves_bind; [apply preserves_log | intros _; apply preserves_ret].
  - apply preserves_bind; [apply preserves_choice|].
    intros random_song.
    apply preserves_bind; [apply preserves_log | intros _; apply preserves_ret].
Qed.

Lemma preserves_get_cmus_current_state : preserves P get_cmus_current_state.
Proof.
  unfold get_cmus_current_state.
  apply preserves_bind; [apply preserves_check_output|].
  intros output. apply preserves_lift.
Qed.

Lemma preserves_get_playing_chance score : preserves P (get_playing_chance score).
Proof.
  unfold get_playing_chance. apply preserves_bind; [apply preserves_gets|].
  intros songs. destruct (num_div _ _); [apply preserves_ret | apply preserves_raise].
Qed.

Lemma preserves_reselect tries_left queue song_path :
  preserves P (reselect tries_left queue song_path).
Proof.
  revert song_path. induction tries_left as [|n IH]; intros song_path; simpl;
    destruct (bool_decide (song_path ∈ queue)); try apply preserves_ret.
  apply preserves_bind; [apply preserves_get_weighted_shuffled_song|].
  intros song. apply IH.
Qed.

Lemma preserves_add_to_queue song_path : preserves P (add_to_queue song_path).
Proof.
  unfold add_to_queue. apply preserves_bind; [apply preserves_check_output|].
  intros output. destruct (_ <=? _)%nat; [apply preserves_log|].
  apply preserves_bind; [apply preserves_reselect|].
  intros song_path'. apply preserves_bind; [apply preserves_run_checked|].
  intros _. apply preserves_log.
Qed.

(** The second half of the handler, for a [P] that also ignores the
    history stack. *)
Lemma preserves_pick_next_song : preserves P pick_next_song.
Proof.
  unfold pick_next_song. apply preserves_bind; [apply preserves_random|].
  intros u. destruct (num_ltb u DISABLE_WEIGHTED_SHUFFLE_THRESHOLD).
  - apply preserves_bind; [apply preserves_check_output|].
    intros output. apply preserves_choice.
  - apply preserves_bind; [apply preserves_get_weighted_shuffled_song|].
    intros song. apply preserves_ret.
Qed.

(** What the handler does once the history entry is written. *)
Lemma preserves_enqueue_tail path :
  preserves P (bind pick_next_song
                    (fun new_song_path =>
                       bind (add_to_queue new_song_path)
                            (fun _ => bind (get_score path) (fun _ => ret tt)))).
Proof.
  apply preserves_bind; [apply preserves_pick_next_song|].
  intros new_song_path. apply preserves_bind; [apply preserves_add_to_queue|].
  intros _. apply preserves_bind; [apply P_get_score|].
  intros _. apply preserves_ret.
Qed.

(** The second half of the handler, for a [P] that also ignores the
    history stack. *)
Lemma preserves_enqueue_next last path :
  (forall f w, P w -> P (with_queue_history f w)) ->
  preserves P (enqueue_next last path).
Proof.
  intros P_history. unfold enqueue_next.
  apply preserves_bind; [apply preserves_now|].
  intros t.
  apply preserves_bind; [apply preserves_modify; intros w; apply P_history|].
  intros _. apply preserves_enqueue_tail.
Qed.

Lemma preserves_insert_state_change path status position duration :
  (forall f w, P w -> P (with_state_changes f w)) ->
  preserves P (insert_state_change path status position duration).
Proof.
  intros P_states. unfold insert_state_change.
  apply preserves_bind; [apply preserves_now|].
  intros t. apply preserves_bind; [apply preserves_bind_int|].
  intros p. apply preserves_bind; [apply preserves_bind_int|].
  intros d. apply preserves_bind; [apply preserves_gets|].
  intros ids. apply preserves_bind; [apply preserves_new_rowid|].
  intros id. apply preserves_modify. intros w. apply P_states.
Qed.

Lemma preserves_handle_previous :
  (forall f w, P w -> P (with_queue_history f w)) ->
  preserves P handle_previous.
Proof.
  intros P_history. unfold handle_previous.
  apply preserves_bind; [apply preserves_gets|].
  intros [[i row]|].
  - apply preserves_bind; [apply preserves_get_cmus_current_state|].
    intros state. apply preserves_bind; [apply preserves_getitem|].
    intros current_song.
    apply preserves_bind; [apply preserves_modify; intros w; apply P_history|].
    intros _. apply preserves_bind; [apply preserves_run_checked|].
    intros _. apply preserves_bind; [apply preserves_log|].
    intros _. apply preserves_run_checked.
  - apply preserves_bind; [apply preserves_log|].
    intros _. apply preserves_run_checked.
Qed.

(** *** The three commands

    What remains is what the commands do to the flag stack and the
    history; [P] has to survive each of these steps. *)
Hypothesis P_update_score :
  forall path increment, preserves P (update_score path increment).
Hypothesis P_history : forall f w, P w -> P (with_queue_history f w).
Hypothesis P_states : forall f w, P w -> P (with_state_changes f w).
Hypothesis P_delete_flag :
  forall id w, P w -> P (with_flag_stack (delete_flag id) w).
Hypothesis P_push_ignore :
  forall id t w,
    P w -> P (with_flag_stack (fun rows => rows ++ [FlagStack.Row id "ignore" t]) w).
Hypothesis P_remember :
  forall nid new_nid,
    establishes (fun w => P w /\ remembered_handle nid (flag_stack w)) P
                (remember_notification nid new_nid).

Lemma preserves_push_ignore_flag : preserves P push_ignore_flag.
Proof.
  unfold push_ignore_flag. apply preserves_bind; [apply preserves_now|].
  intros t. apply preserves_bind; [apply preserves_gets|].
  intros ids. apply preserves_bind; [apply preserves_new_rowid|].
  intros id. apply preserves_modify. intros w. apply P_push_ignore.
Qed.

Lemma preserves_absorb_or_enqueue last path :
  preserves P (absorb_or_enqueue last path).
Proof.
  unfold absorb_or_enqueue. apply preserves_bind; [apply preserves_gets|].
  intros [[i f]|].
  - apply preserves_modify. intros w. apply P_delete_flag.
  - apply preserves_enqueue_next. exact P_history.
Qed.

Lemma preserves_handle_state_change new_state :
  preserves P (handle_state_change new_state).
Proof.
  unfold handle_state_change.
  apply preserves_bind; [apply preserves_getitem|]. intros path.
  apply preserves_bind; [apply preserves_getitem|]. intros status.
  apply preserves_bind.
  { apply preserves_bind; [apply preserves_getitem | intros s; apply preserves_int_of]. }
  intros position. apply preserves_bind.
  { apply preserves_bind; [apply preserves_getitem | intros s; apply preserves_int_of]. }
  intros duration. apply preserves_bind; [apply preserves_gets|].
  intros last. destruct (bool_decide (last = Some path)); [apply preserves_ret|].
  apply preserves_bind; [apply preserves_insert_state_change; exact P_states|].
  intros _. apply preserves_absorb_or_enqueue.
Qed.

Lemma preserves_score_command argv : preserves P (score_command argv).
Proof.
  unfold score_command.
  apply preserves_bind.
  { apply preserves_bind; [apply preserves_index | intros s; apply preserves_int_of]. }
  intros score_increment.
  apply preserves_bind; [apply preserves_get_cmus_current_state|].
  intros state. apply preserves_bind; [apply preserves_getitem|].
  intros song_path. apply preserves_bind; [apply P_update_score|].
  intros score. apply preserves_bind; [apply preserves_get_playing_chance|].
  intros chance. apply preserves_gets_bind. intros w HP.
  set (nid := match latest FlagStack.timestamp
                      (flags_named "notification_id" (flag_stack w)) with
              | Some (_, f) => FlagStack.flag_id f
              | None => 0
              end).
  pose (Q := fun w' : World => P w' /\ remembered_handle nid (flag_stack w')).
  assert (HQ : Q w) by (split; [exact HP | reflexivity]).
  assert (Hprocess : forall argv', preserves Q (check_output argv')).
  { intros argv' w' [HP' Hnid]. split; [apply preserves_check_output; exact HP'|].
    unfold check_output. cbv zeta.
    destruct (fst (run_process argv' (env w'))); exact Hnid. }
  assert (Hpure : forall (A : Type) (r : Result A), preserves Q (lift r))
    by (intros A r w' HQ'; exact HQ').
  revert HQ. generalize w. change (establishes Q P
    (bind (check_output (gdbus_notify nid score (num_mul chance (num_of_Z 100))))
          (fun output =>
             bind (bind (index (py_split space output) 1)
                        (fun field => int_of (hd EmptyString (py_split comma field))))
                  (fun new_notification_id =>
                     remember_notification nid new_notification_id)))).
  apply establishes_bind; [intros w' [Hw' _]; exact Hw' | apply Hprocess |].
  intros output. apply establishes_bind; [intros w' [Hw' _]; exact Hw' | |].
  { apply preserves_bind.
    - unfold index. destruct (_ !! _); intros w' HQ'; exact HQ'.
    - intros s. unfold int_of. destruct (py_int _); intros w' HQ'; exact HQ'. }
  intros new_nid. apply P_remember.
Qed.

Lemma preserves_main argv : preserves P (main argv).
Proof.
  assert (Hbody : preserves P (main_body argv)).
  { unfold main_body. apply preserves_bind; [apply preserves_index|].
    intros command. destruct (bool_decide (command = "previous")).
    { apply preserves_bind; [apply preserves_push_ignore_flag|].
      intros _. apply preserves_handle_previous. exact P_history. }
    destruct (bool_decide (command = "score")); [apply preserves_score_command|].
    apply preserves_bind; [apply preserves_get_cmus_current_state|].
    intros cmus_state. apply preserves_bind; [apply preserves_handle_state_change|].
    intros _. apply preserves_log. }
  intros w Hw. unfold main. specialize (Hbody w Hw).
  destruct (main_body argv w) as [[[]|e] w1]; simpl in *; [exact Hbody|].
  apply P_log, P_env. exact Hbody.
Qed.

End Frame.

(** Side conditions of the frame lemmas for a [P] that reads one table. *)
Ltac blind :=
  first [ solve [intros ? ? Hw; exact Hw]
        | solve [intros ?; apply preserves_get_score_blind; intros ? ? Hw; exact Hw]
        | solve [intros ? ?; apply preserves_update_score_blind; intros ? ? Hw; exact Hw] ].

(** ** Transition handler *)

(** A snapshot is either rejected before anything happens, or it carries
    the four values the handler reads. *)
Lemma handle_state_change_cases new_state w :
  (exists e, handle_state_change new_state w = (Raise e, w)) \/
  (exists path status position duration,
      well_formed new_state path status position duration).
Proof.
  unfold handle_state_change, well_formed, bind, getitem, int_of, ret, raise.
  destruct (new_state !! "file") as [path|]; cbv beta iota zeta;
    [|left; eexists; reflexivity].
  destruct (new_state !! "status") as [status|]; cbv beta iota zeta;
    [|left; eexists; reflexivity].
  destruct (new_state !! "position") as [p|]; cbv beta iota zeta;
    [|left; eexists; reflexivity].
  destruct (py_int p) as [position|] eqn:Hp; cbv beta iota zeta;
    [|left; eexists; reflexivity].
  destruct (new_state !! "duration") as [d|]; cbv beta iota zeta;
    [|left; eexists; reflexivity].
  destruct (py_int d) as [duration|] eqn:Hd; cbv beta iota zeta;
    [|left; eexists; reflexivity].
  right. exists path, status, position, duration. eauto 10.
Qed.

Lemma handle_state_change_parsed new_state path status position duration w :
  well_formed new_state path status position duration ->
  handle_state_change new_state w =
    if bool_decide (last_path (state_changes w) = Some path) then (Ok tt, w)
    else bind (insert_state_change path status position duration)
              (fun _ => absorb_or_enqueue (last_path (state_changes w)) path) w.
Proof.
  intros (Hf & Hs & (p & Hp & Hpi) & (d & Hd & Hdi)).
  unfold handle_state_change, bind at 1 2 3 4 5 6 7, getitem, int_of, gets.
  rewrite Hf, Hs, Hp. simpl. rewrite Hpi, Hd. simpl. rewrite Hdi. simpl.
  destruct (bool_decide _); reflexivity.
Qed.

(** The INSERT either fails, having only read the clock, or appends one
    row stamped with that reading. *)
Lemma insert_state_change_cases path status position duration w :
  let t := fst (datetime_now (env w)) in
  (exists e e', insert_state_change path status position duration w =
                (Raise e, with_env e' w)) \/
  (exists id e',
      insert_state_change path status position duration w =
      (Ok tt, with_state_changes
                (fun rows => rows ++ [StateChanges.Row id path status position duration t])
                (with_env e' w))).
Proof.
  unfold insert_state_change, bind, now, bind_int, gets, modify, new_rowid, ret, raise.
  simpl.
  destruct (fits_int64 position); [|left; eauto].
  destruct (fits_int64 duration); [|left; eauto].
  destruct (next_rowid _) as [id|]; [right; eauto|]. simpl.
  destruct (fst (sqlite_random_rowid _)) as [v|]; [|left; eauto].
  destruct (bool_decide _); [left; eauto | right; eauto].
Qed.

Lemma insert_state_change_ok path status position duration w id :
  fits_int64 position = true -> fits_int64 duration = true ->
  next_rowid (map StateChanges.state_id (state_changes w)) = Some id ->
  insert_state_change path status position duration w =
    (Ok tt,
     mkWorld (song_scores w) (flag_stack w) (queue_history w)
             (state_changes w ++
                [StateChanges.Row id path status position duration
                                  (fst (datetime_now (env w)))])
             (log_file w) (calls w) (snd (datetime_now (env w)))).
Proof.
  intros Hp Hd Hid.
  unfold insert_state_change, bind, now, bind_int, gets, modify, new_rowid, ret.
  simpl. rewrite Hp, Hd. simpl. rewrite Hid. reflexivity.
Qed.

Lemma absorb_or_enqueue_keeps_states last path w :
  state_changes (snd (absorb_or_enqueue last path w)) = state_changes w.
Proof.
  pose (P := fun w' : World => state_changes w' = state_changes w).
  assert (HP : preserves P (absorb_or_enqueue last path)).
  { unfold absorb_or_enqueue. apply preserves_bind; [apply preserves_gets|].
    intros [[i f]|].
    - apply preserves_modify. intros w' Hw'. exact Hw'.
    - apply preserves_enqueue_next; blind. }
  apply (HP w). reflexivity.
Qed.

Lemma last_path_snoc_later rows r :
  later_than_all (StateChanges.timestamp r) rows ->
  last_path (rows ++ [r]) = Some (StateChanges.path r).
Proof.
  intros Hlater. unfold last_path.
  rewrite (latest_snoc_later StateChanges.timestamp rows r Hlater). reflexivity.
Qed.

(** C5: a snapshot whose path is that of the most recent stored snapshot
    leaves the whole state as it is (no row added, no flag consumed, no
    history entry, no child process, no random draw), and the handler
    returns normally when the snapshot carries its four values.  A second
    call with a snapshot the handler has just accepted changes nothing,
    provided the clock reading of the first call was later than the stored
    timestamps. *)
Theorem handle_state_change_same_path :
  (forall new_state path w,
      new_state !! "file" = Some path ->
      last_path (state_changes w) = Some path ->
      snd (handle_state_change new_state w) = w /\
      (forall status position duration,
          well_formed new_state path status position duration ->
          handle_state_change new_state w = (Ok tt, w))) /\
  (forall new_state w,
      fst (handle_state_change new_state w) = Ok tt ->
      later_than_all (fst (datetime_now (env w))) (state_changes w) ->
      let w1 := snd (handle_state_change new_state w) in
      handle_state_change new_state w1 = (Ok tt, w1)).
Proof.
  split.
  - intros new_state path w Hfile Hlast.
    assert (Hwf : forall status position duration,
               well_formed new_state path status position duration ->
               handle_state_change new_state w = (Ok tt, w)).
    { intros status position duration Hwf.
      rewrite (handle_state_change_parsed _ _ _ _ _ _ Hwf).
      rewrite bool_decide_eq_true_2 by exact Hlast. reflexivity. }
    split; [|exact Hwf].
    destruct (handle_state_change_cases new_state w)
      as [[e He] | (path' & status & position & duration & Hwf')].
    + rewrite He. reflexivity.
    + assert (path' = path) by (destruct Hwf' as [Hf _]; congruence). subst path'.
      rewrite (Hwf _ _ _ Hwf'). reflexivity.
  - intros new_state w Hok Hlater w1. subst w1.
    destruct (handle_state_change_cases new_state w)
      as [[e He] | (path & status & position & duration & Hwf)].
    { rewrite He in Hok. discriminate. }
    assert (Hsame : forall w', last_path (state_changes w') = Some path ->
                               handle_state_change new_state w' = (Ok tt, w')).
    { intros w' Hlast. rewrite (handle_state_change_parsed _ _ _ _ _ _ Hwf).
      rewrite bool_decide_eq_true_2 by exact Hlast. reflexivity. }
    destruct (decide (last_path (state_changes w) = Some path)) as [Hlast|Hlast].
    { rewrite (Hsame w Hlast). simpl. apply Hsame, Hlast. }
    apply Hsame.
    rewrite (handle_state_change_parsed _ _ _ _ _ _ Hwf) in Hok |- *.
    rewrite bool_decide_eq_false_2 in Hok |- * by exact Hlast.
    unfold bind in Hok |- *.
    destruct (insert_state_change_cases path status position duration w)
      as [(e & e' & Hins) | (id & e' & Hins)]; rewrite Hins in Hok |- *.
    { discriminate. }
    rewrite absorb_or_enqueue_keeps_states. simpl.
    apply (last_path_snoc_later (state_changes w)
             (StateChanges.Row id path status position duration _)).
    exact Hlater.
Qed.

Lemma pending_ignore_facts rows f :
  pending_ignore rows = Some f ->
  (exists i, latest FlagStack.timestamp (flags_named "ignore" rows) = Some (i, f)) /\
  FlagStack.flag f = "ignore" /\
  f ∈ rows /\
  Forall (fun g => FlagStack.flag g = "ignore" ->
                   FlagStack.timestamp g <= FlagStack.timestamp f) rows.
Proof.
  unfold pending_ignore. intros Hp.
  destruct (latest FlagStack.timestamp (flags_named "ignore" rows)) as [[i g]|] eqn:E;
    [|discriminate].
  injection Hp as ->.
  destruct (latest_Some _ _ _ _ E) as [Hl Hmax].
  assert (Hin : f ∈ flags_named "ignore" rows)
    by (apply list_elem_of_lookup; eauto).
  apply list_elem_of_filter in Hin as [Hflag Hin].
  split; [eauto|]. split; [exact Hflag|]. split; [exact Hin|].
  apply Forall_forall. intros g Hg Hgflag.
  rewrite Forall_forall in Hmax. apply Hmax.
  apply list_elem_of_filter. split; assumption.
Qed.

Lemma delete_flag_spec id rows g :
  g ∈ delete_flag id rows <-> FlagStack.flag_id g <> id /\ g ∈ rows.
Proof. unfold delete_flag. rewrite list_elem_of_filter. reflexivity. Qed.

(** C2 (as the code has it): with an ignore flag pending, a snapshot that
    can be stored and whose path differs from that of the most recent
    stored snapshot makes the handler store the snapshot, delete the most
    recent ignore flag and return: no history entry, no score, no child
    process and no random draw.  A snapshot with the same path returns
    before the flag is looked at, and the flag stays. *)
Theorem pending_ignore_consumed_on_change
        new_state path status position duration id f w :
  well_formed new_state path status position duration ->
  fits_int64 position = true -> fits_int64 duration = true ->
  next_rowid (map StateChanges.state_id (state_changes w)) = Some id ->
  pending_ignore (flag_stack w) = Some f ->
  (if decide (last_path (state_changes w) = Some path)
   then handle_state_change new_state w = (Ok tt, w)
   else handle_state_change new_state w =
          (Ok tt,
           mkWorld (song_scores w)
                   (delete_flag (FlagStack.flag_id f) (flag_stack w))
                   (queue_history w)
                   (state_changes w ++
                      [StateChanges.Row id path status position duration
                                        (fst (datetime_now (env w)))])
                   (log_file w) (calls w) (snd (datetime_now (env w))))) /\
  FlagStack.flag f = "ignore" /\
  f ∈ flag_stack w /\
  (f ∉ delete_flag (FlagStack.flag_id f) (flag_stack w)) /\
  Forall (fun g => FlagStack.flag g = "ignore" ->
                   FlagStack.timestamp g <= FlagStack.timestamp f) (flag_stack w).
Proof.
  intros Hwf Hp Hd Hid Hpending.
  destruct (pending_ignore_facts _ _ Hpending) as ([i Hlatest] & Hflag & Hin & Hmax).
  split; [|split; [exact Hflag|split; [exact Hin|split; [|exact Hmax]]]].
  - rewrite (handle_state_change_parsed _ _ _ _ _ _ Hwf).
    destruct (decide (last_path (state_changes w) = Some path)) as [Hlast|Hlast].
    + rewrite bool_decide_eq_true_2 by exact Hlast. reflexivity.
    + rewrite bool_decide_eq_false_2 by exact Hlast.
      unfold bind at 1. rewrite (insert_state_change_ok _ _ _ _ _ _ Hp Hd Hid).
      unfold absorb_or_enqueue, bind, gets. simpl. rewrite Hlatest. reflexivity.
  - rewrite delete_flag_spec. intros [Hne _]. apply Hne. reflexivity.
Qed.

(** Whatever happens afterwards, [enqueue_next] has pushed the previous
    path onto the history. *)
Lemma enqueue_next_history last path w :
  queue_history (snd (enqueue_next last path w)) =
  queue_history w ++ [QueueHistory.Row last (fst (datetime_now (env w)))].
Proof.
  unfold enqueue_next. rewrite bind_now, bind_modify.
  set (w0 := with_queue_history _ _).
  pose (P := fun w' : World => queue_history w' = queue_history w0).
  assert (HP : preserves P (bind pick_next_song
                      (fun new_song_path =>
                         bind (add_to_queue new_song_path)
                              (fun _ => bind (get_score path) (fun _ => ret tt)))))
    by (apply preserves_enqueue_tail; blind).
  rewrite (HP w0 eq_refl). reflexivity.
Qed.

(** [handle_previous] with an entry on the history, a player that reports
    its current track and accepts the prepend command. *)
Lemma handle_previous_run w i row output state current out' :
  latest QueueHistory.timestamp (queue_history w) = Some (i, row) ->
  let e1 := snd (run_process ["cmus-remote"; "-Q"] (env w)) in
  let add := ["cmus-remote"; "-C"; String.append "add -Q " current] in
  let play := ["cmus-remote"; "-C";
               String.append "player-play " (py_str_opt (QueueHistory.path row))] in
  let e2 := snd (run_process add e1) in
  let e3 := snd (datetime_now e2) in
  fst (run_process ["cmus-remote"; "-Q"] (env w)) = Some output ->
  parse_status (py_split newline (py_strip output)) ∅ = Ok state ->
  state !! "file" = Some current ->
  fst (run_process add e1) = Some out' ->
  handle_previous w =
    (match fst (run_process play e3) with
     | Some _ => Ok tt
     | None => Raise CalledProcessError
     end,
     mkWorld (song_scores w) (flag_stack w)
             (delete i (queue_history w)) (state_changes w)
             (log_file w ++ [(fst (datetime_now e2), LogPrepended current)])
             (calls w ++ [["cmus-remote"; "-Q"]; add; play])
             (snd (run_process play e3))).
Proof.
  intros Htop e1 add play e2 e3 Hout Hparse Hfile Hadd.
  unfold handle_previous. rewrite bind_gets, Htop.
  unfold get_cmus_current_state. rewrite bind_assoc.
  rewrite (bind_check_output_Ok _ output) by exact Hout.
  rewrite Hparse, bind_lift_Ok. unfold getitem. rewrite Hfile, bind_ret, bind_modify.
  unfold run_checked at 1. rewrite bind_assoc.
  rewrite (bind_check_output_Ok _ out') by exact Hadd.
  rewrite bind_ret.
  rewrite bind_log, run_checked_run.
  f_equal. apply world_ext; simpl; try reflexivity.
  - apply (delete_latest_Some _ _ _ _ Htop).
  - rewrite <- !app_assoc. reflexivity.
Qed.

(** C10: on the first transition ever observed (no stored snapshot) with no
    ignore flag pending, the handler pushes the null path onto the history,
    whatever the selection and the enqueue do afterwards.  When the history
    holds nothing newer (on a first transition it is empty), a later
    [handle_previous] finds that entry on top: once the player has reported
    the current track and accepted the prepend command, it is told to
    [player-play None], and the entry is gone. *)
Theorem first_transition_pushes_null
        new_state path status position duration w :
  state_changes w = [] ->
  pending_ignore (flag_stack w) = None ->
  well_formed new_state path status position duration ->
  fits_int64 position = true -> fits_int64 duration = true ->
  let t := fst (datetime_now (snd (datetime_now (env w)))) in
  let w1 := snd (handle_state_change new_state w) in
  queue_history w1 = queue_history w ++ [QueueHistory.Row None t] /\
  (history_older_than t (queue_history w) ->
   history_top (queue_history w1) = Some (QueueHistory.Row None t) /\
   forall e output state current,
     let w2 := with_env e w1 in
     let e3 := snd (run_process ["cmus-remote"; "-Q"] e) in
     fst (run_process ["cmus-remote"; "-Q"] e) = Some output ->
     parse_status (py_split newline (py_strip output)) ∅ = Ok state ->
     state !! "file" = Some current ->
     is_Some (fst (run_process
                     ["cmus-remote"; "-C"; String.append "add -Q " current] e3)) ->
     calls (snd (handle_previous w2)) =
       calls w2 ++ [["cmus-remote"; "-Q"];
                    ["cmus-remote"; "-C"; String.append "add -Q " current];
                    ["cmus-remote"; "-C"; "player-play None"]] /\
     queue_history (snd (handle_previous w2)) = queue_history w).
Proof.
  intros Hstates Hpending Hwf Hp Hd t w1.
  assert (Hq : queue_history w1 = queue_history w ++ [QueueHistory.Row None t]).
  { subst w1 t. rewrite (handle_state_change_parsed _ _ _ _ _ _ Hwf).
    rewrite Hstates. simpl.
    unfold bind at 1.
    rewrite (insert_state_change_ok _ _ _ _ _ 1 Hp Hd)
      by (rewrite Hstates; reflexivity).
    unfold absorb_or_enqueue, bind at 1, gets. simpl.
    unfold pending_ignore in Hpending.
    destruct (latest FlagStack.timestamp (flags_named "ignore" (flag_stack w)))
      as [[i f]|]; [discriminate|].
    rewrite enqueue_next_history. reflexivity. }
  split; [exact Hq|]. intros Holder.
  assert (Htop : latest QueueHistory.timestamp (queue_history w1) =
                 Some (length (queue_history w), QueueHistory.Row None t)).
  { rewrite Hq. apply latest_snoc_later. exact Holder. }
  split; [unfold history_top; rewrite Htop; reflexivity|].
  intros e output state current w2 e3 Hout Hparse Hfile [out' Hadd].
  rewrite (handle_previous_run w2 _ _ output state current out' Htop Hout Hparse Hfile Hadd).
  cbn [calls queue_history snd]. change (queue_history w2) with (queue_history w1).
  rewrite Hq, delete_middle, app_nil_r. split; reflexivity.
Qed.

(** ** Weighted selector *)

(** With no scored song the selector has nothing to fall back on. *)
Lemma get_weighted_shuffled_song_empty w :
  song_scores w = [] -> fst (get_weighted_shuffled_song w) = Raise IndexError.
Proof.
  intros Hs. unfold get_weighted_shuffled_song. rewrite bind_gets, Hs. reflexivity.
Qed.

(** The fallback where it works (the part of C4 the code delivers): when at
    least one song is scored and the scan runs through all of them without
    selecting one, the selector does not raise: it draws an index, returns
    the song at that position of the score-ordered list, which is a stored
    song, and logs the incident.  Nothing but the log and the random source
    changes. *)
Theorem selector_fallback_nonempty w :
  song_scores w <> [] ->
  let songs := order_by_score_desc (song_scores w) in
  scan_songs (first_draw w) songs = None ->
  let e1 := snd (random_random (env w)) in
  let k := fst (randbelow (length songs) e1) in
  let e2 := snd (randbelow (length songs) e1) in
  exists song,
    songs !! (k mod length songs)%nat = Some song /\
    song ∈ song_scores w /\
    get_weighted_shuffled_song w =
      (Ok song,
       mkWorld (song_scores w) (flag_stack w) (queue_history w) (state_changes w)
               (log_file w ++ [(fst (datetime_now e2), LogSomethingWentWrong song)])
               (calls w) (snd (datetime_now e2))).
Proof.
  intros Hne songs Hscan e1 k e2.
  assert (Hperm : songs ≡ₚ song_scores w) by apply order_by_score_desc_perm.
  assert (Hlen : (0 < length songs)%nat).
  { rewrite Hperm. destruct (song_scores w); [congruence | simpl; lia]. }
  assert (Hk : (k mod length songs < length songs)%nat)
    by (apply Nat.mod_upper_bound; lia).
  destruct (lookup_lt_is_Some_2 songs _ Hk) as [song Hsong].
  exists song. split; [exact Hsong|]. split.
  { rewrite <- Hperm. apply list_elem_of_lookup. eauto. }
  unfold get_weighted_shuffled_song. rewrite bind_gets. fold songs.
  unfold uniform. rewrite bind_assoc, bind_random. cbv beta. rewrite bind_ret.
  change (scan_songs _ songs) with (scan_songs (first_draw w) songs).
  rewrite Hscan.
  rewrite (bind_choice_Some _ song) by exact Hsong.
  rewrite bind_log. reflexivity.
Qed.

(** ** Flag stack *)

(** Replacing the remembered handle leaves at most one notification flag. *)
Lemma remember_notification_one nid new_nid :
  establishes
    (fun w => one_notification w /\ remembered_handle nid (flag_stack w))
    one_notification
    (remember_notification nid new_nid).
Proof.
  intros w [Hone Hnid]. unfold remember_notification.
  destruct (bool_decide (nid = new_nid)); [exact Hone|].
  rewrite bind_modify.
  pose proof (delete_remembered_handle nid (flag_stack w) Hone Hnid) as Hnone.
  unfold bind at 1, bind_int.
  destruct (fits_int64 new_nid); unfold ret, raise;
    [|unfold one_notification, count_flags; simpl; rewrite Hnone; simpl; lia].
  rewrite bind_modify, bind_now. unfold insert_flag. rewrite bind_gets.
  assert (Hnone' : flags_named "notification_id"
                     (delete_flag new_nid (delete_flag nid (flag_stack w))) = []).
  { rewrite flags_named_delete_flag, Hnone. reflexivity. }
  destruct (bool_decide _); unfold raise, modify, one_notification, count_flags; simpl.
  - rewrite Hnone'. simpl. lia.
  - rewrite flags_named_snoc, Hnone'. simpl. lia.
Qed.

Lemma one_notification_main argv : preserves one_notification (main argv).
Proof.
  apply preserves_main; try blind.
  - intros id w Hw. unfold one_notification in *. simpl.
    etransitivity; [apply count_flags_delete_flag | exact Hw].
  - intros id t w Hw. unfold one_notification, count_flags in *. simpl.
    rewrite flags_named_snoc. simpl. rewrite app_nil_r. exact Hw.
  - apply remember_notification_one.
Qed.

(** ** The score bounds are an invariant of the installation *)

Lemma preserves_remember_notification_blind (P : World -> Prop) nid new_nid :
  (forall e w, P w -> P (with_env e w)) ->
  (forall f w, P w -> P (with_flag_stack f w)) ->
  preserves P (remember_notification nid new_nid).
Proof.
  intros P_env P_flags. unfold remember_notification.
  destruct (bool_decide (nid = new_nid)); [apply preserves_ret|].
  apply preserves_bind; [apply preserves_modify; intros w; apply P_flags|].
  intros _. apply preserves_bind; [apply preserves_bind_int|].
  intros new_id. apply preserves_bind; [apply preserves_modify; intros w; apply P_flags|].
  intros _. apply preserves_bind; [apply preserves_now; exact P_env|].
  intros t. unfold insert_flag. apply preserves_bind; [apply preserves_gets|].
  intros ids. destruct (bool_decide (new_id ∈ ids)); [apply preserves_raise|].
  apply preserves_modify. intros w. apply P_flags.
Qed.

(** Whatever the script is asked to do, and whatever the player answers,
    scores within the bounds stay within the bounds. *)
Lemma all_bounded_main argv :
  preserves (fun w => all_bounded (song_scores w)) (main argv).
Proof.
  apply preserves_main; try (intros ? ? Hw; exact Hw).
  - apply get_score_keeps_bounds.
  - apply update_score_keeps_bounds.
  - intros id t w Hw. exact Hw.
  - intros nid new_nid w [Hw _].
    apply (preserves_remember_notification_blind
             (fun w => all_bounded (song_scores w)) nid new_nid);
      [intros ? ? Hw'; exact Hw' | intros ? ? Hw'; exact Hw' | exact Hw].
Qed.

(** C3 (as the code has it): in every state reachable from an empty ledger
    by running the script any number of times, with any arguments and any
    behaviour of the outside world, at most one [notification_id] flag is on
    the flag stack.  (Nothing bounds the [ignore] flags: every [previous]
    command pushes one.) *)
Theorem at_most_one_notification_flag w :
  reachable w -> (count_flags "notification_id" (flag_stack w) <= 1)%nat.
Proof.
  induction 1 as [w (Hflags & _ & _) | argv w _ IH | e w _ IH].
  - rewrite Hflags. unfold count_flags, flags_named. rewrite filter_nil. simpl. lia.
  - apply (one_notification_main argv w IH).
  - exact IH.
Qed.

(** ** Previous track *)

(** C7: with an empty history stack [handle_previous] logs, starts exactly
    one child process, [cmus-remote -r], and stops: the history and the
    other tables are left as they were, and the call fails only if that
    process does. *)
Theorem handle_previous_empty_history w :
  queue_history w = [] ->
  let w' := snd (handle_previous w) in
  calls w' = calls w ++ [["cmus-remote"; "-r"]] /\
  queue_history w' = [] /\
  flag_stack w' = flag_stack w /\
  state_changes w' = state_changes w /\
  song_scores w' = song_scores w /\
  log_file w' = log_file w ++ [(fst (datetime_now (env w)), LogNoPrevious)] /\
  fst (handle_previous w) =
    match fst (run_process ["cmus-remote"; "-r"] (snd (datetime_now (env w)))) with
    | Some _ => Ok tt
    | None => Raise CalledProcessError
    end.
Proof.
  intros Hq. unfold handle_previous, bind, gets. rewrite Hq. simpl.
  unfold run_checked, check_output, log, now, modify, bind, ret. simpl.
  destruct (fst (run_process ["cmus-remote"; "-r"] (snd (datetime_now (env w)))));
    simpl; rewrite ?Hq; repeat split; reflexivity.
Qed.

(** ** Enqueue *)

(** C6: when the player reports a queue of at least [MAX_QUEUE_SIZE] (20)
    entries, [add_to_queue] logs that the queue is full and returns: the
    only child process started is the queue query itself, no song is
    selected again (the random source is not consulted), and no table
    changes. *)
Theorem add_to_queue_full song_path output w :
  fst (run_process ["cmus-remote"; "-C"; "save -q -"] (env w)) = Some output ->
  (20 <= length (py_split newline (py_strip output)))%nat ->
  let e1 := snd (run_process ["cmus-remote"; "-C"; "save -q -"] (env w)) in
  add_to_queue song_path w =
    (Ok tt,
     mkWorld (song_scores w) (flag_stack w) (queue_history w) (state_changes w)
             (log_file w ++ [(fst (datetime_now e1), LogQueueFull song_path)])
             (calls w ++ [["cmus-remote"; "-C"; "save -q -"]])
             (snd (datetime_now e1))).
Proof.
  intros Hout Hlen e1.
  assert (Hle : (MAX_QUEUE_SIZE <=? length (py_split newline (py_strip output)))%nat = true)
    by (apply Nat.leb_le; exact Hlen).
  unfold add_to_queue, bind, check_output. cbv zeta. rewrite Hout, Hle.
  reflexivity.
Qed.

(** ** Command line *)

(** Any first argument other than [previous] and [score] selects the
    reaction to the player's state. *)
Lemma main_body_other_command script command rest w :
  command <> "previous" -> command <> "score" ->
  main_body (script :: command :: rest) w =
  bind get_cmus_current_state
       (fun cmus_state =>
          bind (handle_state_change cmus_state) (fun _ => log LogSeparator)) w.
Proof.
  intros Hp Hs. unfold main_body, index. simpl. rewrite bind_ret.
  rewrite !bool_decide_eq_false_2 by assumption. reflexivity.
Qed.

(** C8 (what the code does): started without a command, [main] fails on
    [sys.argv[1]] with [IndexError] before it asks the player anything; the
    traceback is logged and the exception raised again. *)
Theorem main_without_arguments script w :
  main [script] w =
    (Raise IndexError,
     mkWorld (song_scores w) (flag_stack w) (queue_history w) (state_changes w)
             (log_file w ++ [(fst (datetime_now (env w)), LogTraceback IndexError)])
             (calls w) (snd (datetime_now (env w)))).
Proof.
  unfold main, main_body, index. simpl. unfold bind, raise. simpl.
  unfold log, bind, now, modify. reflexivity.
Qed.

(** ** The footprint of a run *)

Lemma runs_ret {A} R (a : A) : Reflexive R -> runs R (ret a).
Proof. intros HR w. apply HR. Qed.

Lemma runs_raise {A} R e : Reflexive R -> runs R (@raise _ _ A e).
Proof. intros HR w. apply HR. Qed.

Lemma runs_gets {A} R (f : World -> A) : Reflexive R -> runs R (gets f).
Proof. intros HR w. apply HR. Qed.

Lemma runs_lift {A} R (r : Result A) : Reflexive R -> runs R (lift r).
Proof. intros HR w. apply HR. Qed.

Lemma runs_bind {A B} R (m : M A) (k : A -> M B) :
  Transitive R -> runs R m -> (forall a, runs R (k a)) -> runs R (bind m k).
Proof.
  intros HR Hm Hk w. unfold bind. specialize (Hm w).
  destruct (m w) as [[a|e] w1]; simpl in *; [|exact Hm].
  etransitivity; [exact Hm | apply Hk].
Qed.

Lemma runs_gets_bind {A B} R (f : World -> A) (k : A -> M B) :
  (forall w, R w (snd (k (f w) w))) -> runs R (bind (gets f) k).
Proof. intros Hk w. rewrite bind_gets. apply Hk. Qed.

Lemma runs_gets_then {A B} R (f : World -> A) (k : A -> M B) :
  (forall a, runs R (k a)) -> runs R (bind (gets f) k).
Proof. intros Hk w. rewrite bind_gets. apply Hk. Qed.

(** The state after [new_rowid] differs in the clock and random source
    only, and the rowid it returns is not in use. *)
Lemma new_rowid_cases ids w :
  (exists e, snd (new_rowid ids w) = with_env e w) /\
  (forall id, fst (new_rowid ids w) = Ok id -> id ∉ ids).
Proof.
  unfold new_rowid. destruct (next_rowid ids) as [id|] eqn:Hnext.
  - split; [exists (env w); destruct w; reflexivity|].
    intros id' [= <-]. apply next_rowid_fresh. exact Hnext.
  - cbv zeta. destruct (fst (sqlite_random_rowid (env w))) as [v|];
      [case_bool_decide as Hv|]; simpl; (split; [eexists; reflexivity|]);
      intros id' Hid; try discriminate.
    injection Hid as <-. exact Hv.
Qed.

Section Footprint.
Variable scoring : bool.



Lemma runs_now : runs (steps scoring) now.
Proof. intros w. apply rtc_once, step_env. Qed.

Lemma runs_random : runs (steps scoring) random.
Proof. intros w. apply rtc_once, step_env. Qed.

Lemma runs_choice {A} (seq : list A) : runs (steps scoring) (choice seq).
Proof.
  intros w. unfold choice. destruct seq; simpl; [reflexivity|].
  apply rtc_once, step_env.
Qed.

Lemma runs_new_rowid ids : runs (steps scoring) (new_rowid ids).
Proof.
  intros w. destruct (new_rowid_cases ids w) as [[e ->] _].
  apply rtc_once, step_env.
Qed.

Lemma runs_bind_int z : runs (steps scoring) (bind_int z).
Proof. unfold bind_int. destruct (fits_int64 z); intros w; reflexivity. Qed.

Lemma runs_getitem d key : runs (steps scoring) (getitem d key).
Proof. unfold getitem. destruct (d !! key); intros w; reflexivity. Qed.

Lemma runs_int_of s : runs (steps scoring) (int_of s).
Proof. unfold int_of. destruct (py_int s); intros w; reflexivity. Qed.

Lemma runs_index seq i : runs (steps scoring) (index seq i).
Proof. unfold index. destruct (seq !! i); intros w; reflexivity. Qed.

Lemma runs_log message : runs (steps scoring) (log message).
Proof.
  intros w. unfold log. rewrite bind_now. unfold modify. simpl.
  eapply rtc_l; [apply step_env|]. apply rtc_once, step_log.
Qed.

Lemma runs_check_output argv : runs (steps scoring) (check_output argv).
Proof.
  intros w. unfold check_output. cbv zeta.
  destruct (fst (run_process argv (env w))); simpl;
    (eapply rtc_l; [apply step_call|]; apply rtc_once, step_env).
Qed.

Lemma runs_run_checked argv : runs (steps scoring) (run_checked argv).
Proof.
  unfold run_checked. apply runs_bind; [apply _ | apply runs_check_output|].
  intros _. apply runs_ret, _.
Qed.

Lemma runs_uniform a b : runs (steps scoring) (uniform a b).
Proof.
  unfold uniform. apply runs_bind; [apply _ | apply runs_random|].
  intros u. apply runs_ret, _.
Qed.

Lemma runs_get_score path : runs (steps scoring) (get_score path).
Proof.
  intros w. unfold get_score. rewrite bind_gets.
  destruct (scores_of path (song_scores w)) as [|song rest] eqn:E; [|reflexivity].
  rewrite bind_log, bind_now, bind_modify. unfold ret. simpl.
  eapply rtc_l; [apply step_env|]. eapply rtc_l; [apply step_log|].
  eapply rtc_l; [apply step_env|]. apply rtc_once, step_new_song.
  unfold stored_score, stored_row. simpl. rewrite E. reflexivity.
Qed.

Lemma runs_get_weighted_shuffled_song : runs (steps scoring) get_weighted_shuffled_song.
Proof.
  unfold get_weighted_shuffled_song. apply runs_gets_then. intros songs. cbv zeta.
  apply runs_bind; [apply _ | apply runs_uniform|].
  intros r. destruct (scan_songs r _) as [song|].
  - apply runs_bind; [apply _ | apply runs_log | intros _; apply runs_ret, _].
  - apply runs_bind; [apply _ | apply runs_choice|].
    intros random_song.
    apply runs_bind; [apply _ | apply runs_log | intros _; apply runs_ret, _].
Qed.

Lemma runs_get_cmus_current_state : runs (steps scoring) get_cmus_current_state.
Proof.
  unfold get_cmus_current_state.
  apply runs_bind; [apply _ | apply runs_check_output|].
  intros output. apply runs_lift, _.
Qed.

Lemma runs_get_playing_chance score : runs (steps scoring) (get_playing_chance score).
Proof.
  unfold get_playing_chance. apply runs_gets_bind. intros w.
  destruct (num_div _ _); reflexivity.
Qed.

Lemma runs_reselect tries_left queue song_path :
  runs (steps scoring) (reselect tries_left queue song_path).
Proof.
  revert song_path. induction tries_left as [|n IH]; intros song_path; simpl;
    destruct (bool_decide (song_path ∈ queue)); try (apply runs_ret, _).
  apply runs_bind; [apply _ | apply runs_get_weighted_shuffled_song|].
  intros song. apply IH.
Qed.

Lemma runs_add_to_queue song_path : runs (steps scoring) (add_to_queue song_path).
Proof.
  unfold add_to_queue. apply runs_bind; [apply _ | apply runs_check_output|].
  intros output. destruct (_ <=? _)%nat; [apply runs_log|].
  apply runs_bind; [apply _ | apply runs_reselect|].
  intros song_path'. apply runs_bind; [apply _ | apply runs_run_checked|].
  intros _. apply runs_log.
Qed.

Lemma runs_pick_next_song : runs (steps scoring) pick_next_song.
Proof.
  unfold pick_next_song. apply runs_bind; [apply _ | apply runs_random|].
  intros u. destruct (num_ltb u DISABLE_WEIGHTED_SHUFFLE_THRESHOLD).
  - apply runs_bind; [apply _ | apply runs_check_output|].
    intros output. apply runs_choice.
  - apply runs_bind; [apply _ | apply runs_get_weighted_shuffled_song|].
    intros song. apply runs_ret, _.
Qed.

Lemma runs_enqueue_next last path : runs (steps scoring) (enqueue_next last path).
Proof.
  unfold enqueue_next. apply runs_bind; [apply _ | apply runs_now|].
  intros t. apply runs_bind; [apply _ | |].
  { intros w. apply rtc_once, step_history_push. }
  intros _. apply runs_bind; [apply _ | apply runs_pick_next_song|].
  intros new_song_path. apply runs_bind; [apply _ | apply runs_add_to_queue|].
  intros _. apply runs_bind; [apply _ | apply runs_get_score|].
  intros _. apply runs_ret, _.
Qed.

Lemma runs_absorb_or_enqueue last path :
  runs (steps scoring) (absorb_or_enqueue last path).
Proof.
  unfold absorb_or_enqueue. apply runs_gets_bind. intros w.
  destruct (latest FlagStack.timestamp (flags_named "ignore" (flag_stack w)))
    as [[i f]|] eqn:E.
  - apply rtc_once, step_consume_ignore. unfold pending_ignore. rewrite E. reflexivity.
  - apply runs_enqueue_next.
Qed.

Lemma runs_insert_state_change path status position duration :
  runs (steps scoring) (insert_state_change path status position duration).
Proof.
  unfold insert_state_change. apply runs_bind; [apply _ | apply runs_now|].
  intros t. apply runs_bind; [apply _ | apply runs_bind_int|].
  intros p. apply runs_bind; [apply _ | apply runs_bind_int|].
  intros d. apply runs_gets_bind. intros w. unfold bind.
  destruct (new_rowid_cases (map StateChanges.state_id (state_changes w)) w)
    as [[e He] Hfresh].
  destruct (new_rowid _ w) as [[id|err] w1]; simpl in *; subst w1;
    [|apply rtc_once, step_env].
  eapply rtc_l; [apply step_env|]. apply rtc_once, step_snapshot.
  simpl. apply Hfresh. reflexivity.
Qed.

Lemma runs_handle_state_change new_state :
  runs (steps scoring) (handle_state_change new_state).
Proof.
  unfold handle_state_change.
  apply runs_bind; [apply _ | apply runs_getitem|]. intros path.
  apply runs_bind; [apply _ | apply runs_getitem|]. intros status.
  apply runs_bind; [apply _ | |].
  { apply runs_bind; [apply _ | apply runs_getitem | intros s; apply runs_int_of]. }
  intros position. apply runs_bind; [apply _ | |].
  { apply runs_bind; [apply _ | apply runs_getitem | intros s; apply runs_int_of]. }
  intros duration. apply runs_gets_then. intros last. cbv zeta.
  destruct (bool_decide _); [apply runs_ret, _|].
  apply runs_bind; [apply _ | apply runs_insert_state_change|].
  intros _. apply runs_absorb_or_enqueue.
Qed.

Lemma runs_handle_previous : runs (steps scoring) handle_previous.
Proof.
  unfold handle_previous. apply runs_gets_then. intros [[i row]|].
  - apply runs_bind; [apply _ | apply runs_get_cmus_current_state|].
    intros state. apply runs_bind; [apply _ | apply runs_getitem|].
    intros current_song. apply runs_bind; [apply _ | |].
    { intros w. apply rtc_once, step_history_pop. }
    intros _. apply runs_bind; [apply _ | apply runs_run_checked|].
    intros _. apply runs_bind; [apply _ | apply runs_log|].
    intros _. apply runs_run_checked.
  - apply runs_bind; [apply _ | apply runs_log|].
    intros _. apply runs_run_checked.
Qed.

Lemma runs_push_ignore_flag : runs (steps scoring) push_ignore_flag.
Proof.
  intros w. unfold push_ignore_flag. rewrite bind_now, bind_gets. unfold bind.
  set (w0 := with_env _ w).
  destruct (new_rowid_cases (map FlagStack.flag_id (flag_stack w0)) w0)
    as [[e He] Hfresh].
  destruct (new_rowid _ w0) as [[id|err] w1]; simpl in *; subst w1;
    (eapply rtc_l; [apply step_env|]); [|apply rtc_once, step_env].
  eapply rtc_l; [apply step_env|]. apply rtc_once, step_push_ignore.
  simpl. apply Hfresh. reflexivity.
Qed.

End Footprint.

Lemma runs_update_score path increment :
  runs (steps true) (update_score path increment).
Proof.
  intros w. unfold update_score, bind at 1.
  destruct (get_score_post path w) as (current & Hfst & _ & Hstored & _).
  pose proof (runs_get_score true path w) as Hget.
  destruct (get_score path w) as [[score|e] w1]; cbn [fst snd] in *; [|exact Hget].
  injection Hfst as ->. etransitivity; [exact Hget|]. cbv zeta.
  rewrite bind_now, bind_modify, bind_log. unfold ret. cbn [snd].
  eapply rtc_l; [apply step_env|].
  eapply rtc_l; [eapply step_rescore; [reflexivity | exact Hstored]|].
  eapply rtc_l; [apply step_env|]. apply rtc_once, step_log.
Qed.

Lemma runs_insert_notification_flag id t :
  runs (steps true) (insert_flag id "notification_id" t).
Proof.
  unfold insert_flag. apply runs_gets_bind. intros w.
  case_bool_decide as Hid; [reflexivity|].
  apply rtc_once, step_remember_handle; [reflexivity | exact Hid].
Qed.

Lemma runs_forget_handle id :
  runs (steps true) (modify (with_flag_stack (delete_flag id))).
Proof. intros w. apply rtc_once, step_forget_handle. reflexivity. Qed.

Lemma runs_remember_notification notification_id new_notification_id :
  runs (steps true) (remember_notification notification_id new_notification_id).
Proof.
  unfold remember_notification. destruct (bool_decide _); [apply runs_ret, _|].
  apply runs_bind; [apply _ | apply runs_forget_handle|].
  intros _. apply runs_bind; [apply _ | apply runs_bind_int|].
  intros new_id. apply runs_bind; [apply _ | apply runs_forget_handle|].
  intros _. apply runs_bind; [apply _ | apply runs_now|].
  intros t. apply runs_insert_notification_flag.
Qed.

Lemma runs_score_command argv : runs (steps true) (score_command argv).
Proof.
  unfold score_command. apply runs_bind; [apply _ | |].
  { apply runs_bind; [apply _ | apply runs_index | intros s; apply runs_int_of]. }
  intros score_increment.
  apply runs_bind; [apply _ | apply runs_get_cmus_current_state|].
  intros state. apply runs_bind; [apply _ | apply runs_getitem|].
  intros song_path. apply runs_bind; [apply _ | apply runs_update_score|].
  intros score. apply runs_bind; [apply _ | apply runs_get_playing_chance|].
  intros chance. cbv zeta. apply runs_gets_then. intros notifications.
  apply runs_bind; [apply _ | apply runs_check_output|].
  intros output. apply runs_bind; [apply _ | |].
  { apply runs_bind; [apply _ | apply runs_index | intros s; apply runs_int_of]. }
  intros new_notification_id. apply runs_remember_notification.
Qed.

Lemma runs_main_body argv : runs (steps (is_score_command argv)) (main_body argv).
Proof.
  intros w. unfold main_body, bind at 1, index.
  destruct (argv !! 1%nat) as [command|] eqn:Hcommand; cbn [ret raise fst snd];
    [|reflexivity].
  destruct (bool_decide (command = "previous")).
  { revert w. apply runs_bind; [apply _ | apply runs_push_ignore_flag|].
    intros _. apply runs_handle_previous. }
  case_bool_decide as Hscore.
  - assert (is_score_command argv = true) as ->.
    { unfold is_score_command. rewrite Hcommand, Hscore. apply bool_decide_eq_true_2.
      reflexivity. }
    apply runs_score_command.
  - revert w. apply runs_bind; [apply _ | apply runs_get_cmus_current_state|].
    intros cmus_state. apply runs_bind; [apply _ | apply runs_handle_state_change|].
    intros _. apply runs_log.
Qed.

Lemma runs_main argv : runs (steps (is_score_command argv)) (main argv).
Proof.
  intros w. unfold main. pose proof (runs_main_body argv w) as Hbody.
  destruct (main_body argv w) as [[[]|e] w1]; cbn [snd] in *; [exact Hbody|].
  etransitivity; [exact Hbody | apply runs_log].
Qed.

(** What every elementary update keeps is kept by a whole run. *)
Lemma steps_invariant scoring (P : World -> Prop) :
  (forall w w', step scoring w w' -> P w -> P w') ->
  forall w w', steps scoring w w' -> P w -> P w'.
Proof.
  intros Hstep w w' Hsteps. induction Hsteps as [|w w1 w' H1 _ IH]; [exact id|].
  intros Hw. apply IH. exact (Hstep _ _ H1 Hw).
Qed.

Lemma step_appends scoring w w' :
  step scoring w w' ->
  state_changes w `prefix_of` state_changes w' /\ log_file w `prefix_of` log_file w'.
Proof.
  destruct 1; simpl; split; try reflexivity; apply prefix_app_r; reflexivity.
Qed.

(** X4: no run of the script removes or rewrites a row of [state_changes]
    or a line of the log; both only grow at the end, whatever the command
    and whether the run returns or raises. *)
Theorem main_appends_only argv w :
  state_changes w `prefix_of` state_changes (snd (main argv w)) /\
  log_file w `prefix_of` log_file (snd (main argv w)).
Proof.
  pose proof (runs_main argv w) as Hrun.
  induction Hrun as [w|w w1 w' H1 _ IH]; [split; reflexivity|].
  destruct (step_appends _ _ _ H1) as [Hs Hl]. destruct IH as [Hs' Hl'].
  split; etransitivity; eassumption.
Qed.

Lemma step_keys_unique scoring w w' :
  step scoring w w' -> keys_unique w -> keys_unique w'.
Proof.
  unfold keys_unique.
  destruct 1; simpl; intros (Hscores & Hflags & Hstates);
    (split; [|split]); try assumption.
  - apply NoDup_map_snoc; [|exact Hscores]. simpl. apply stored_score_None. assumption.
  - rewrite map_path_set_score. exact Hscores.
  - apply NoDup_map_snoc; assumption.
  - apply NoDup_map_filter. exact Hflags.
  - apply NoDup_map_snoc; assumption.
  - apply NoDup_map_filter. exact Hflags.
  - apply NoDup_map_snoc; assumption.
Qed.

(** X5: the primary keys stay unique: a run never leaves two score
    records for one path, two flags with one id or two snapshots with one
    id.  In particular the unchecked [INSERT] of [get_score] never meets
    an existing path. *)
Theorem main_keeps_keys_unique argv w :
  keys_unique w -> keys_unique (snd (main argv w)).
Proof.
  apply (steps_invariant (is_score_command argv)); [apply step_keys_unique|].
  apply runs_main.
Qed.

Lemma step_keeps_score_records scoring p w w' :
  step scoring w w' ->
  is_Some (stored_score p (song_scores w)) ->
  is_Some (stored_score p (song_scores w')).
Proof.
  destruct 1; try (intros Hp; exact Hp); simpl.
  - intros [s Hs]. exists s. unfold stored_score in *.
    destruct (stored_row p (song_scores w)) as [row|] eqn:Hrow; [|discriminate].
    rewrite (stored_row_snoc _ _ _ _ Hrow). exact Hs.
  - apply stored_score_set_score.
Qed.

(** X6: a score record is never deleted: a track that has a stored score
    before a run, with any command, has one after it. *)
Theorem main_keeps_score_records argv p w :
  is_Some (stored_score p (song_scores w)) ->
  is_Some (stored_score p (song_scores (snd (main argv w)))).
Proof.
  apply (steps_invariant (is_score_command argv)
           (fun w => is_Some (stored_score p (song_scores w))));
    [apply step_keeps_score_records | apply runs_main].
Qed.

Lemma step_keeps_rows p row w w' :
  step false w w' ->
  stored_row p (song_scores w) = Some row ->
  stored_row p (song_scores w') = Some row.
Proof.
  destruct 1; try (intros Hp; exact Hp); try discriminate; simpl.
  apply stored_row_snoc.
Qed.

Lemma not_score_command argv :
  argv !! 1%nat <> Some "score" -> is_score_command argv = false.
Proof. intros Hne. apply bool_decide_eq_false_2. exact Hne. Qed.

(** X7: only the [score] command changes a score record: after a run with
    any other command (or none), every record that existed still carries
    the same score and the same [last_played]. *)
Theorem other_commands_keep_scores argv p row w :
  argv !! 1%nat <> Some "score" ->
  stored_row p (song_scores w) = Some row ->
  stored_row p (song_scores (snd (main argv w))) = Some row.
Proof.
  intros Hne. pose proof (runs_main argv w) as Hrun.
  rewrite (not_score_command _ Hne) in Hrun. revert Hrun.
  apply (steps_invariant false (fun w => stored_row p (song_scores w) = Some row)).
  intros w1 w2. apply step_keeps_rows.
Qed.

Lemma step_keeps_notification_flags w w' :
  step false w w' ->
  NoDup (map FlagStack.flag_id (flag_stack w)) ->
  NoDup (map FlagStack.flag_id (flag_stack w')) /\
  flags_named "notification_id" (flag_stack w') =
  flags_named "notification_id" (flag_stack w).
Proof.
  intros Hstep Hflags. split.
  { clear -Hstep Hflags. destruct Hstep; try exact Hflags; try discriminate; simpl.
    - apply NoDup_map_filter. exact Hflags.
    - apply NoDup_map_snoc; assumption. }
  destruct Hstep as [| | | | | | | |f w Hpending|id t w Hid| |];
    try reflexivity; try discriminate; simpl.
  - destruct (pending_ignore_facts _ _ Hpending) as (_ & Hflag & Hin & _).
    apply flags_named_delete_other; [exact Hflags | exact Hin|].
    rewrite Hflag. discriminate.
  - rewrite flags_named_snoc. rewrite decide_False by discriminate.
    apply app_nil_r.
Qed.

(** X8: with unique flag ids, a run with any command other than [score]
    leaves the notification flags exactly as they were: consuming an
    ignore flag never removes the remembered notification handle. *)
Theorem other_commands_keep_notification_flags argv w :
  argv !! 1%nat <> Some "score" ->
  NoDup (map FlagStack.flag_id (flag_stack w)) ->
  flags_named "notification_id" (flag_stack (snd (main argv w))) =
  flags_named "notification_id" (flag_stack w).
Proof.
  intros Hne Hflags. pose proof (runs_main argv w) as Hrun.
  rewrite (not_score_command _ Hne) in Hrun.
  apply (steps_invariant false
           (fun w' => NoDup (map FlagStack.flag_id (flag_stack w')) /\
                      flags_named "notification_id" (flag_stack w') =
                      flags_named "notification_id" (flag_stack w))
           ) with (w := w) (w' := snd (main argv w)); [|exact Hrun|].
  - intros w1 w2 Hstep [Hnodup Hsame].
    destruct (step_keeps_notification_flags _ _ Hstep Hnodup) as [Hnodup' Hsame'].
    split; [exact Hnodup' | congruence].
  - split; [exact Hflags | reflexivity].
Qed.

(** ** The selector and the queue *)

(** What one call of the selector does: it touches the log and the random
    source only, returns a stored song with one line logged, and cannot
    fail on a non-empty store. *)
Lemma get_weighted_shuffled_song_cases w :
  let r := get_weighted_shuffled_song w in
  song_scores (snd r) = song_scores w /\
  calls (snd r) = calls w /\
  (forall song, fst r = Ok song ->
     song ∈ song_scores w /\
     length (log_file (snd r)) = S (length (log_file w))) /\
  (song_scores w <> [] -> exists song, fst r = Ok song).
Proof.
  cbv zeta. unfold get_weighted_shuffled_song. rewrite bind_gets. cbv zeta.
  unfold uniform. rewrite bind_assoc, bind_random. cbv beta. rewrite bind_ret.
  assert (Hperm : order_by_score_desc (song_scores w) ≡ₚ song_scores w)
    by apply order_by_score_desc_perm.
  destruct (scan_songs _ _) as [song|] eqn:Hscan.
  - rewrite bind_log. unfold ret. cbn [fst snd].
    split; [reflexivity|]. split; [reflexivity|]. split; [|eauto].
    intros song' [= <-]. split.
    + rewrite <- Hperm. eapply scan_songs_elem_of. exact Hscan.
    + simpl. rewrite length_app. simpl. lia.
  - clear Hscan. destruct (order_by_score_desc (song_scores w)) as [|x rest] eqn:Hsongs.
    + unfold bind, choice. cbn [fst snd].
      split; [reflexivity|]. split; [reflexivity|]. split; [discriminate|].
      intros Hne. destruct Hne. symmetry in Hperm.
      apply Permutation_nil_r in Hperm. exact Hperm.
    + unfold bind at 1. unfold choice. cbv zeta. rewrite bind_log. unfold ret.
      cbn [fst snd].
      split; [reflexivity|]. split; [reflexivity|]. split; [|eauto].
      intros song' [= <-]. split.
      * rewrite <- Hperm. apply nth_mod_elem_of.
      * simpl. rewrite length_app. simpl. lia.
Qed.

(** X9: the weighted selector only ever returns a song of the score store,
    from the subtraction loop as well as from the fallback, and leaves the
    store as it is. *)
Theorem selector_returns_stored_song w song :
  fst (get_weighted_shuffled_song w) = Ok song ->
  song ∈ song_scores w /\
  song_scores (snd (get_weighted_shuffled_song w)) = song_scores w.
Proof.
  intros Hsong.
  destruct (get_weighted_shuffled_song_cases w) as (Hscores & _ & Hok & _).
  split; [exact (proj1 (Hok song Hsong)) | exact Hscores].
Qed.

(** What the retry loop of [add_to_queue] does: it starts no process,
    leaves the score store as it is, and the path it settles on is the one
    it was given or the path of a stored song; a path that is not queued is
    kept without a draw. *)
Lemma reselect_cases tries_left queue song_path w :
  let r := reselect tries_left queue song_path w in
  song_scores (snd r) = song_scores w /\
  calls (snd r) = calls w /\
  (forall p, fst r = Ok p ->
     (p = song_path \/ p ∈ map SongScores.path (song_scores w)) /\
     (song_path ∉ queue -> p = song_path /\ snd r = w)).
Proof.
  cbv zeta. revert song_path w.
  induction tries_left as [|n IH]; intros song_path w; simpl;
    case_bool_decide as Hqueued;
    try (unfold ret; cbn [fst snd];
         split; [reflexivity|]; split; [reflexivity|];
         intros p [= <-]; split; [left; reflexivity|];
         intros _; split; reflexivity).
  unfold bind.
  destruct (get_weighted_shuffled_song_cases w) as (Hscores & Hcalls & Hok & _).
  destruct (get_weighted_shuffled_song w) as [[song|e] w1]; cbn [fst snd] in *.
  - destruct (IH (SongScores.path song) w1) as (Hscores' & Hcalls' & Hok').
    split; [congruence|]. split; [congruence|].
    intros p Hp. destruct (Hok' p Hp) as [Hfrom _]. split.
    + right. destruct Hfrom as [->|Hin]; [|rewrite <- Hscores; exact Hin].
      destruct (Hok song eq_refl) as [Hstored _].
      apply list_elem_of_In, in_map, list_elem_of_In. exact Hstored.
    + intros Hnot. destruct (Hnot Hqueued).
  - split; [exact Hscores|]. split; [exact Hcalls|]. discriminate.
Qed.

(** X10: [add_to_queue] starts at most two processes, in this order: the
    query of the queue, and at most one enqueue command.  The song it
    enqueues is the one requested or a song of the score store. *)
Theorem add_to_queue_enqueues_at_most_one song_path w :
  exists tail,
    calls (snd (add_to_queue song_path w)) =
      calls w ++ ["cmus-remote"; "-C"; "save -q -"] :: tail /\
    (tail = [] \/
     exists p, tail = [["cmus-remote"; "-q"; p]] /\
               (p = song_path \/ p ∈ map SongScores.path (song_scores w))).
Proof.
  unfold add_to_queue, bind at 1, check_output. cbv zeta.
  destruct (fst (run_process _ (env w))) as [output|]; cbn [fst snd];
    [|exists []; split; [reflexivity | left; reflexivity]].
  set (w1 := with_env _ _).
  destruct (_ <=? _)%nat.
  { exists []. split; [reflexivity | left; reflexivity]. }
  unfold bind at 1.
  destruct (reselect_cases 10 (py_split newline (py_strip output)) song_path w1)
    as (Hscores & Hcalls & Hok).
  destruct (reselect 10 _ song_path w1) as [[p|e] w2]; cbn [fst snd] in *.
  - exists [["cmus-remote"; "-q"; p]]. split.
    + unfold bind. rewrite run_checked_run.
      destruct (fst (run_process _ (env w2))); cbn [snd]; simpl;
        rewrite Hcalls; simpl; rewrite <- app_assoc; reflexivity.
    + right. exists p. split; [reflexivity|]. exact (proj1 (Hok p eq_refl)).
  - exists []. split; [rewrite Hcalls; reflexivity | left; reflexivity].
Qed.

(** X11: a song that is not in the queue, with the queue below its
    capacity, is enqueued as it is: no song is drawn, one enqueue command
    is issued, and the run fails only when that command does. *)
Theorem add_to_queue_not_queued song_path output w :
  let query := ["cmus-remote"; "-C"; "save -q -"] in
  let enqueue := ["cmus-remote"; "-q"; song_path] in
  let e1 := snd (run_process query (env w)) in
  let e2 := snd (run_process enqueue e1) in
  fst (run_process query (env w)) = Some output ->
  (length (py_split newline (py_strip output)) < 20)%nat ->
  song_path ∉ py_split newline (py_strip output) ->
  add_to_queue song_path w =
    match fst (run_process enqueue e1) with
    | Some _ =>
        (Ok tt,
         mkWorld (song_scores w) (flag_stack w) (queue_history w) (state_changes w)
                 (log_file w ++ [(fst (datetime_now e2), LogAddedToQueue song_path)])
                 (calls w ++ [query; enqueue]) (snd (datetime_now e2)))
    | None =>
        (Raise CalledProcessError,
         mkWorld (song_scores w) (flag_stack w) (queue_history w) (state_changes w)
                 (log_file w) (calls w ++ [query; enqueue]) e2)
    end.
Proof.
  intros query enqueue e1 e2 Hout Hlen Hnot.
  assert (Hle : (MAX_QUEUE_SIZE <=? length (py_split newline (py_strip output)))%nat
                = false) by (apply Nat.leb_gt; exact Hlen).
  unfold add_to_queue. rewrite (bind_check_output_Ok _ output) by exact Hout.
  cbv zeta. rewrite Hle.
  assert (Hkeep : forall w', reselect 10 (py_split newline (py_strip output))
                                      song_path w' = (Ok song_path, w')).
  { intros w'. simpl. rewrite bool_decide_eq_false_2 by exact Hnot. reflexivity. }
  unfold bind at 1. rewrite Hkeep. unfold bind at 1. rewrite run_checked_run.
  cbn [env with_env with_calls]. fold query enqueue e1.
  destruct (fst (run_process enqueue e1)).
  - unfold log. rewrite bind_now. unfold modify. f_equal.
    apply world_ext; simpl; try reflexivity. rewrite <- app_assoc. reflexivity.
  - f_equal. apply world_ext; simpl; try reflexivity.
    rewrite <- app_assoc. reflexivity.
Qed.

Lemma reselect_all_queued tries_left queue song_path w :
  song_scores w <> [] ->
  (forall song, song ∈ song_scores w -> SongScores.path song ∈ queue) ->
  song_path ∈ queue ->
  exists p,
    fst (reselect tries_left queue song_path w) = Ok p /\
    p ∈ queue /\
    calls (snd (reselect tries_left queue song_path w)) = calls w /\
    length (log_file (snd (reselect tries_left queue song_path w))) =
      (length (log_file w) + tries_left)%nat.
Proof.
  revert song_path w.
  induction tries_left as [|n IH]; intros song_path w Hne Hall Hqueued; simpl;
    rewrite bool_decide_eq_true_2 by exact Hqueued.
  - exists song_path. unfold ret. cbn [fst snd].
    split; [reflexivity|]. split; [exact Hqueued|]. split; [reflexivity | lia].
  - unfold bind.
    destruct (get_weighted_shuffled_song_cases w) as (Hscores & Hcalls & Hok & Hsome).
    destruct (Hsome Hne) as [song Hsong].
    destruct (get_weighted_shuffled_song w) as [[song'|e] w1]; cbn [fst snd] in *;
      [|discriminate].
    injection Hsong as ->. destruct (Hok song eq_refl) as [Hstored Hlog].
    destruct (IH (SongScores.path song) w1) as (p & Hp & Hin & Hcalls' & Hlog').
    + rewrite Hscores. exact Hne.
    + rewrite Hscores. exact Hall.
    + apply Hall, Hstored.
    + exists p. split; [exact Hp|]. split; [exact Hin|].
      split; [congruence|]. rewrite Hlog', Hlog. lia.
Qed.

(** X12: the retry loop gives up after ten draws.  When the requested song
    and every stored song are already queued (and the queue is below its
    capacity), [add_to_queue] draws exactly ten songs and then enqueues a
    song that is already in the queue. *)
Theorem add_to_queue_all_queued song_path output w :
  let query := ["cmus-remote"; "-C"; "save -q -"] in
  let queue := py_split newline (py_strip output) in
  fst (run_process query (env w)) = Some output ->
  (length queue < 20)%nat ->
  song_path ∈ queue ->
  song_scores w <> [] ->
  (forall song, song ∈ song_scores w -> SongScores.path song ∈ queue) ->
  exists p,
    p ∈ queue /\
    calls (snd (add_to_queue song_path w)) =
      calls w ++ [query; ["cmus-remote"; "-q"; p]] /\
    length (log_file (snd (add_to_queue song_path w))) =
      (length (log_file w) + 10 +
       match fst (add_to_queue song_path w) with Ok _ => 1 | Raise _ => 0 end)%nat.
Proof.
  intros query queue Hout Hlen Hqueued Hne Hall.
  assert (Hle : (MAX_QUEUE_SIZE <=? length queue)%nat = false)
    by (apply Nat.leb_gt; exact Hlen).
  unfold add_to_queue. rewrite (bind_check_output_Ok _ output) by exact Hout.
  cbv zeta. fold queue. rewrite Hle.
  set (w1 := with_env _ _).
  destruct (reselect_all_queued 10 queue song_path w1 Hne Hall Hqueued)
    as (p & Hp & Hin & Hcalls & Hlog).
  exists p. split; [exact Hin|]. unfold bind at 1 3 5.
  destruct (reselect 10 queue song_path w1) as [[p'|e] w2]; cbn [fst snd] in *;
    [|discriminate].
  injection Hp as ->. unfold bind. rewrite run_checked_run.
  destruct (fst (run_process _ (env w2))); cbn [fst snd]; simpl;
    rewrite Hcalls; simpl; (split; [rewrite <- app_assoc; reflexivity|]).
  - rewrite length_app, Hlog. simpl. lia.
  - rewrite Hlog. simpl. lia.
Qed.

(** ** Going back *)

(** X13: [handle_previous] removes the entry from the history before it
    prepends the current song.  When the player rejects the prepend
    command, the run fails with the entry already gone, and the command to
    play the previous song is never issued. *)
Theorem handle_previous_prepend_fails w i row output state current :
  let query := ["cmus-remote"; "-Q"] in
  let add := ["cmus-remote"; "-C"; String.append "add -Q " current] in
  let e1 := snd (run_process query (env w)) in
  latest QueueHistory.timestamp (queue_history w) = Some (i, row) ->
  fst (run_process query (env w)) = Some output ->
  parse_status (py_split newline (py_strip output)) ∅ = Ok state ->
  state !! "file" = Some current ->
  fst (run_process add e1) = None ->
  handle_previous w =
    (Raise CalledProcessError,
     mkWorld (song_scores w) (flag_stack w)
             (delete i (queue_history w)) (state_changes w)
             (log_file w) (calls w ++ [query; add])
             (snd (run_process add e1))).
Proof.
  intros query add e1 Htop Hout Hparse Hfile Hadd.
  unfold handle_previous. rewrite bind_gets, Htop.
  unfold get_cmus_current_state. rewrite bind_assoc.
  rewrite (bind_check_output_Ok _ output) by exact Hout.
  rewrite Hparse, bind_lift_Ok. unfold getitem. rewrite Hfile, bind_ret, bind_modify.
  unfold bind at 1. rewrite run_checked_run.
  cbn [env with_env with_calls with_queue_history]. fold query add e1.
  rewrite Hadd. f_equal. apply world_ext; simpl; try reflexivity.
  - apply (delete_latest_Some _ _ _ _ Htop).
  - rewrite <- !app_assoc. reflexivity.
Qed.

(** X14: when the player reports no current file, [handle_previous] fails
    with [KeyError] before it touches the history: the entry stays on the
    stack and the only process started is the query. *)
Theorem handle_previous_no_current_file w i row output state :
  let query := ["cmus-remote"; "-Q"] in
  latest QueueHistory.timestamp (queue_history w) = Some (i, row) ->
  fst (run_process query (env w)) = Some output ->
  parse_status (py_split newline (py_strip output)) ∅ = Ok state ->
  state !! "file" = None ->
  handle_previous w =
    (Raise (KeyError "file"),
     mkWorld (song_scores w) (flag_stack w) (queue_history w) (state_changes w)
             (log_file w) (calls w ++ [query])
             (snd (run_process query (env w)))).
Proof.
  intros query Htop Hout Hparse Hfile.
  unfold handle_previous. rewrite bind_gets, Htop.
  unfold get_cmus_current_state. rewrite bind_assoc.
  rewrite (bind_check_output_Ok _ output) by exact Hout.
  rewrite Hparse, bind_lift_Ok. unfold getitem. rewrite Hfile.
  unfold bind, raise. f_equal.
Qed.

Lemma flag_stack_handle_previous flags :
  preserves (fun w => flag_stack w = flags) handle_previous.
Proof. apply preserves_handle_previous; intros; assumption. Qed.

(** X15: the [previous] command pushes its ignore flag before it does
    anything else, so the flag is on the stack after the run whether
    [handle_previous] returns or raises. *)
Theorem previous_pushes_ignore_first argv w id :
  argv !! 1%nat = Some "previous" ->
  next_rowid (map FlagStack.flag_id (flag_stack w)) = Some id ->
  flag_stack (snd (main argv w)) =
    flag_stack w ++ [FlagStack.Row id "ignore" (fst (datetime_now (env w)))].
Proof.
  intros Hcommand Hnext.
  assert (Hbody : flag_stack (snd (main_body argv w)) =
                  flag_stack w ++
                    [FlagStack.Row id "ignore" (fst (datetime_now (env w)))]).
  { unfold main_body, index. rewrite Hcommand, bind_ret.
    rewrite bool_decide_eq_true_2 by reflexivity.
    unfold push_ignore_flag. rewrite bind_assoc, bind_now, bind_assoc, bind_gets.
    cbn [flag_stack with_env]. unfold new_rowid. rewrite Hnext.
    rewrite bind_assoc, bind_ret, bind_modify.
    apply flag_stack_handle_previous. reflexivity. }
  unfold main. destruct (main_body argv w) as [[[]|e] w1]; cbn [snd] in *;
    exact Hbody.
Qed.

(** ** Score records and the remembered notification *)

(** X18: looking a score up twice is the same as looking it up once: the
    second [get_score] returns the same score and changes nothing, the
    log included. *)
Theorem get_score_twice path w :
  get_score path (snd (get_score path w)) =
  (fst (get_score path w), snd (get_score path w)).
Proof.
  destruct (get_score_post path w) as (current & Hfst & _ & Hstored & _).
  rewrite Hfst. rewrite (get_score_run path (snd (get_score path w))).
  unfold stored_score, stored_row in Hstored.
  destruct (scores_of path (song_scores (snd (get_score path w)))) as [|song rest];
    [discriminate|].
  simpl in Hstored. injection Hstored as ->. reflexivity.
Qed.

(** X19: replacing the remembered handle never violates the primary key
    of [flag_stack]: the row with the new id is deleted before the insert,
    so the only possible failure is a handle that does not fit 64 bits. *)
Theorem remember_notification_outcome notification_id new_notification_id w :
  fst (remember_notification notification_id new_notification_id w) =
    if bool_decide (notification_id = new_notification_id) then Ok tt
    else if fits_int64 new_notification_id then Ok tt
    else Raise OverflowError.
Proof.
  unfold remember_notification. destruct (bool_decide _); [reflexivity|].
  rewrite bind_modify. unfold bind at 1, bind_int.
  destruct (fits_int64 new_notification_id); unfold ret, raise; [|reflexivity].
  rewrite bind_modify, bind_now. unfold insert_flag. rewrite bind_gets.
  cbn [flag_stack with_env with_flag_stack].
  rewrite bool_decide_eq_false_2 by apply delete_flag_not_elem_of. reflexivity.
Qed.

Lemma remember_notification_run notification_id new_notification_id w :
  notification_id <> new_notification_id ->
  fits_int64 new_notification_id = true ->
  remember_notification notification_id new_notification_id w =
    (Ok tt,
     with_flag_stack
       (fun rows => rows ++ [FlagStack.Row new_notification_id "notification_id"
                                           (fst (datetime_now (env w)))])
       (with_env (snd (datetime_now (env w)))
          (with_flag_stack (delete_flag new_notification_id)
             (with_flag_stack (delete_flag notification_id) w)))).
Proof.
  intros Hne Hfits. unfold remember_notification.
  rewrite bool_decide_eq_false_2 by exact Hne.
  rewrite bind_modify. unfold bind at 1, bind_int. rewrite Hfits. unfold ret.
  rewrite bind_modify, bind_now. unfold insert_flag. rewrite bind_gets.
  cbn [flag_stack with_env with_flag_stack].
  rewrite bool_decide_eq_false_2 by apply delete_flag_not_elem_of. reflexivity.
Qed.

(** X20: what the [score] command writes is what the next [score] command
    reads: with at most one notification flag on the stack, replacing the
    remembered handle by a new one succeeds, and the new one is then the
    remembered handle. *)
Theorem remember_notification_round_trip notification_id new_notification_id w :
  one_notification w ->
  remembered_handle notification_id (flag_stack w) ->
  fits_int64 new_notification_id = true ->
  fst (remember_notification notification_id new_notification_id w) = Ok tt /\
  remembered_handle new_notification_id
    (flag_stack (snd (remember_notification notification_id new_notification_id w))).
Proof.
  intros Hone Hnid Hfits.
  destruct (decide (notification_id = new_notification_id)) as [Hsame|Hne].
  { unfold remember_notification. rewrite bool_decide_eq_true_2 by exact Hsame.
    subst. split; [reflexivity | exact Hnid]. }
  rewrite (remember_notification_run _ _ w Hne Hfits).
  split; [reflexivity|]. unfold remembered_handle.
  cbn [snd flag_stack with_env with_flag_stack].
  rewrite flags_named_snoc, flags_named_delete_flag.
  rewrite (delete_remembered_handle notification_id (flag_stack w) Hone Hnid).
  reflexivity.
Qed.

(** ** The command line *)

(** X21: every exception that leaves [main] has been written to the log
    first: the traceback is the last line of the log. *)
Theorem main_logs_exception argv w e :
  fst (main argv w) = Raise e ->
  exists t, last (log_file (snd (main argv w))) = Some (t, LogTraceback e).
Proof.
  unfold main. destruct (main_body argv w) as [[[]|e'] w1]; cbn [fst snd];
    [discriminate|].
  intros [= ->]. unfold log. rewrite bind_now. unfold modify.
  cbn [snd log_file with_log_file with_env]. eexists. apply last_snoc.
Qed.

Lemma preserves_gets_then {A B} P (f : World -> A) (k : A -> M B) :
  (forall a, preserves P (k a)) -> preserves P (bind (gets f) k).
Proof. intros Hk w HP. rewrite bind_gets. apply Hk. exact HP. Qed.

Lemma stored_score_set_score_same p s t rows current :
  stored_score p rows = Some current ->
  stored_score p (set_score p s t rows) = Some s.
Proof.
  unfold stored_score, stored_row. rewrite scores_of_set_score.
  destruct (scores_of p rows); [discriminate | reflexivity].
Qed.

Lemma update_score_stores path increment w :
  let new_score :=
    bounded_add (default DEFAULT_SCORE (stored_score path (song_scores w))) increment in
  fst (update_score path increment w) = Ok new_score /\
  stored_score path (song_scores (snd (update_score path increment w))) = Some new_score.
Proof.
  cbv zeta. rewrite update_score_run.
  destruct (get_score_post path w) as (current & Hfst & Hcurrent & Hstored & _).
  destruct (get_score path w) as [[score|e] w1]; cbn [fst snd] in *; [|discriminate].
  injection Hfst as ->. rewrite <- Hcurrent. split; [reflexivity|].
  cbn [song_scores]. eapply stored_score_set_score_same. exact Hstored.
Qed.

(** X22: the [score] command commits the new score before it sends the
    notification.  Once the player has reported the current file, the
    stored score of that file after the run is the old score (2 for a new
    song) plus the increment when that is within the bounds, the old score
    otherwise, whatever becomes of the notification. *)
Theorem score_command_commits_score argv s increment output state path w :
  argv !! 1%nat = Some "score" ->
  argv !! 2%nat = Some s ->
  py_int s = Some increment ->
  fst (run_process ["cmus-remote"; "-Q"] (env w)) = Some output ->
  parse_status (py_split newline (py_strip output)) ∅ = Ok state ->
  state !! "file" = Some path ->
  stored_score path (song_scores (snd (main argv w))) =
    Some (bounded_add (default DEFAULT_SCORE (stored_score path (song_scores w)))
                      increment).
Proof.
  intros Hcommand Harg Hint Hout Hparse Hfile.
  set (new_score := bounded_add _ _).
  pose (P := fun w' : World => stored_score path (song_scores w') = Some new_score).
  assert (P_env : forall e w', P w' -> P (with_env e w')) by (intros; assumption).
  assert (P_log : forall f w', P w' -> P (with_log_file f w')) by (intros; assumption).
  assert (P_calls : forall f w', P w' -> P (with_calls f w')) by (intros; assumption).
  assert (P_flags : forall f w', P w' -> P (with_flag_stack f w'))
    by (intros; assumption).
  assert (Hbody : P (snd (main_body argv w))).
  { unfold main_body, index. rewrite Hcommand, bind_ret.
    rewrite bool_decide_eq_false_2 by discriminate.
    rewrite bool_decide_eq_true_2 by reflexivity.
    unfold score_command. rewrite bind_assoc. unfold index at 1.
    rewrite Harg, bind_ret. unfold int_of at 1. rewrite Hint, bind_ret.
    unfold get_cmus_current_state. rewrite bind_assoc.
    rewrite (bind_check_output_Ok _ output) by exact Hout.
    rewrite Hparse, bind_lift_Ok. unfold getitem at 1. rewrite Hfile, bind_ret.
    set (w1 := with_env _ _). unfold bind at 1.
    destruct (update_score_stores path increment w1) as [Hfst Hstored].
    change (song_scores w1) with (song_scores w) in Hfst, Hstored.
    fold new_score in Hfst, Hstored.
    destruct (update_score path increment w1) as [[score|e] w2]; cbn [fst snd] in *;
      [|discriminate].
    match goal with
    | |- P (snd (?m w2)) => enough (Hrest : preserves P m) by exact (Hrest w2 Hstored)
    end.
    apply preserves_bind; [apply preserves_get_playing_chance|].
    intros chance. cbv zeta. apply preserves_gets_then. intros notifications.
    apply preserves_bind; [apply preserves_check_output; assumption|].
    intros reply. apply preserves_bind.
    { apply preserves_bind; [apply preserves_index | intros field; apply preserves_int_of]. }
    intros new_notification_id.
    apply preserves_remember_notification_blind; assumption. }
  unfold main. destruct (main_body argv w) as [[[]|e] w1]; cbn [snd] in *;
    [exact Hbody|].
  apply (preserves_log P P_env P_log). exact Hbody.
Qed.

(** X23: a [score] command without an increment, or with one that is not
    an integer, fails before it asks the player anything: no process is
    started and no table is changed; the exception is [IndexError] for a
    missing argument and [ValueError] for a malformed one. *)
Theorem score_command_bad_increment argv w :
  argv !! 1%nat = Some "score" ->
  argv !! 2%nat ≫= py_int = None ->
  main argv w =
    let e := match argv !! 2%nat with
             | None => IndexError
             | Some _ => ValueError
             end in
    (Raise e,
     mkWorld (song_scores w) (flag_stack w) (queue_history w) (state_changes w)
             (log_file w ++ [(fst (datetime_now (env w)), LogTraceback e)])
             (calls w) (snd (datetime_now (env w)))).
Proof.
  intros Hcommand Harg. unfold main, main_body, index. rewrite Hcommand, bind_ret.
  rewrite bool_decide_eq_false_2 by discriminate.
  rewrite bool_decide_eq_true_2 by reflexivity.
  unfold score_command, index, int_of.
  destruct (argv !! 2%nat) as [s|]; cbn [mbind option_bind] in Harg;
    [rewrite bind_assoc, bind_ret, Harg|]; reflexivity.
Qed.

(** X24: when the player reports no file (nothing is loaded), the
    reaction to a state change fails with [KeyError] on [file] before it
    records anything: no snapshot, no history entry, no flag consumed, no
    song enqueued; only the traceback is logged. *)
Theorem react_without_file argv command output state w :
  let query := ["cmus-remote"; "-Q"] in
  let e1 := snd (run_process query (env w)) in
  argv !! 1%nat = Some command ->
  command <> "previous" ->
  command <> "score" ->
  fst (run_process query (env w)) = Some output ->
  parse_status (py_split newline (py_strip output)) ∅ = Ok state ->
  state !! "file" = None ->
  main argv w =
    (Raise (KeyError "file"),
     mkWorld (song_scores w) (flag_stack w) (queue_history w) (state_changes w)
             (log_file w ++ [(fst (datetime_now e1), LogTraceback (KeyError "file"))])
             (calls w ++ [query]) (snd (datetime_now e1))).
Proof.
  intros query e1 Hcommand Hprevious Hscore Hout Hparse Hfile.
  unfold main, main_body, index. rewrite Hcommand, bind_ret.
  rewrite !bool_decide_eq_false_2 by assumption.
  unfold get_cmus_current_state. rewrite bind_assoc.
  rewrite (bind_check_output_Ok _ output) by exact Hout.
  rewrite Hparse, bind_lift_Ok.
  unfold handle_state_change, getitem. rewrite Hfile. reflexivity.
Qed.

Lemma bind_Ok_inv {A B} (m : M A) (k : A -> M B) w b :
  fst (bind m k w) = Ok b ->
  exists a w1, m w = (Ok a, w1) /\ bind m k w = k a w1.
Proof.
  unfold bind. destruct (m w) as [[a|e] w1]; [eauto | discriminate].
Qed.

Lemma enqueue_next_ensures_record last path w :
  fst (enqueue_next last path w) = Ok tt ->
  is_Some (stored_score path (song_scores (snd (enqueue_next last path w)))).
Proof.
  unfold enqueue_next. rewrite bind_now, bind_modify. set (w0 := with_queue_history _ _).
  intros Hok.
  destruct (bind_Ok_inv _ _ _ _ Hok) as (new_song_path & w1 & _ & Hpick).
  rewrite Hpick in *. clear Hpick.
  destruct (bind_Ok_inv _ _ _ _ Hok) as ([] & w2 & _ & Hadd).
  rewrite Hadd in *. clear Hadd. unfold bind in *.
  destruct (get_score_post path w2) as (current & Hfst & _ & Hstored & _).
  destruct (get_score path w2) as [[score|e] w3]; cbn [fst snd] in *; [|discriminate].
  exists current. exact Hstored.
Qed.

(** X25: a change of song that is handled to the end leaves a score record
    for the new song.  When the reported file differs from the last
    snapshot, no ignore flag is pending and [handle_state_change] returns,
    the file has a stored score afterwards. *)
Theorem handle_state_change_ensures_record new_state path w :
  new_state !! "file" = Some path ->
  last_path (state_changes w) <> Some path ->
  pending_ignore (flag_stack w) = None ->
  fst (handle_state_change new_state w) = Ok tt ->
  is_Some (stored_score path
             (song_scores (snd (handle_state_change new_state w)))).
Proof.
  intros Hfile Hchange Hpending Hok.
  destruct (handle_state_change_cases new_state w)
    as [[e He]|(path' & status & position & duration & Hwf)].
  { rewrite He in Hok. discriminate. }
  assert (path' = path) as -> by (destruct Hwf as [Hf _]; congruence).
  rewrite (handle_state_change_parsed _ _ _ _ _ w Hwf) in *.
  rewrite bool_decide_eq_false_2 in * by exact Hchange.
  destruct (bind_Ok_inv _ _ _ _ Hok) as ([] & w1 & Hinsert & Hrest).
  rewrite Hrest in *. clear Hrest.
  assert (Hflags : flag_stack w1 = flag_stack w).
  { destruct (insert_state_change_cases path status position duration w)
      as [(e & e' & Hi)|(id & e' & Hi)]; rewrite Hi in Hinsert; [discriminate|].
    injection Hinsert as <-. reflexivity. }
  unfold absorb_or_enqueue in *. rewrite bind_gets in *. rewrite Hflags in *.
  unfold pending_ignore in Hpending.
  destruct (latest FlagStack.timestamp (flags_named "ignore" (flag_stack w)));
    [discriminate|].
  apply enqueue_next_ensures_record. exact Hok.
Qed.



End Proofs.

(** * The statements at work on the scripted runtime *)

Import Scripted.

(** C1 at a song already at the upper bound: one more point is refused. *)
Lemma update_score_spec_witness :
  all_bounded (song_scores (one_song quiet)) /\
  fst (update_score "/m/a.mp3" 1 (one_song quiet)) = Ok 15.
Proof.
  assert (Hb : all_bounded (song_scores (one_song quiet))).
  { constructor; [|constructor]. unfold in_bounds, MIN_SCORE, MAX_SCORE. simpl. lia. }
  split; [exact Hb|].
  destruct (update_score_spec "/m/a.mp3" 1 (one_song quiet) Hb) as (_ & Hr & _).
  exact Hr.
Defined.

(** C2, the sentence as stated fails.  On a fresh installation the player
    reports [/m/a.mp3] and the script reacts; [previous] is pressed, which
    pushes an ignore flag; the script is started again while the player
    still reports [/m/a.mp3].  The handler returns at the same-song check,
    and the flag is still pending. *)
Lemma pending_ignore_survives_same_path :
  let w := run ["weighted_shuffle.py"; "previous"]
               (run ["weighted_shuffle.py"; "status"] (fresh quiet)) in
  let r := handle_state_change (snapshot "/m/a.mp3") w in
  reachable w /\
  pending_ignore (flag_stack w) = Some (FlagStack.Row 1 "ignore" 106) /\
  fst r = Ok tt /\
  pending_ignore (flag_stack (snd r)) = Some (FlagStack.Row 1 "ignore" 106).
Proof.
  split.
  - apply reach_main, reach_main, reach_start. repeat split; reflexivity.
  - vm_compute. repeat split; reflexivity.
Qed.

(** C2 as amended, on a change to [/m/b.mp3]: the flag is consumed. *)
Lemma pending_ignore_consumed_on_change_witness :
  let w := suppressed quiet in
  let new_state := snapshot "/m/b.mp3" in
  (well_formed new_state "/m/b.mp3" "playing" 3 200 /\
   fits_int64 3 = true /\ fits_int64 200 = true /\
   next_rowid (map StateChanges.state_id (state_changes w)) = Some 2 /\
   pending_ignore (flag_stack w) = Some (FlagStack.Row 1 "ignore" 6)) /\
  fst (handle_state_change new_state w) = Ok tt /\
  flag_stack (snd (handle_state_change new_state w)) = [] /\
  queue_history (snd (handle_state_change new_state w)) = [] /\
  calls (snd (handle_state_change new_state w)) = [].
Proof.
  intros w new_state.
  assert (Hwf : well_formed new_state "/m/b.mp3" "playing" 3 200).
  { repeat split; try reflexivity; [exists "3" | exists "200"]; split; reflexivity. }
  assert (Hpending : pending_ignore (flag_stack w) = Some (FlagStack.Row 1 "ignore" 6))
    by reflexivity.
  split; [split; [exact Hwf | repeat split; reflexivity]|].
  destruct (pending_ignore_consumed_on_change
              new_state "/m/b.mp3" "playing" 3 200 2 (FlagStack.Row 1 "ignore" 6) w
              Hwf eq_refl eq_refl eq_refl Hpending) as (Hrun & _).
  rewrite decide_False in Hrun by (vm_compute; congruence).
  rewrite Hrun. repeat split; reflexivity.
Defined.

(** C3, the sentence as stated fails: two [previous] commands in a row on a
    fresh installation leave two ignore flags pending. *)
Lemma two_ignore_flags_reachable :
  let w := snd (main ["weighted_shuffle.py"; "previous"]
                     (snd (main ["weighted_shuffle.py"; "previous"] (fresh quiet)))) in
  reachable w /\ count_flags "ignore" (flag_stack w) = 2%nat.
Proof.
  split.
  - apply reach_main, reach_main, reach_start. repeat split; reflexivity.
  - vm_compute. reflexivity.
Qed.

(** C3 as amended, after a [score] command on a fresh installation. *)
Lemma at_most_one_notification_flag_witness :
  let w := snd (main ["weighted_shuffle.py"; "score"; "1"] (fresh quiet)) in
  reachable w /\ (count_flags "notification_id" (flag_stack w) <= 1)%nat.
Proof.
  intros w.
  assert (Hreach : reachable w)
    by (apply reach_main, reach_start; repeat split; reflexivity).
  split; [exact Hreach|]. apply (at_most_one_notification_flag w Hreach).
Defined.

(** C4 (what the code does): with no scored song the scan is over at once,
    nothing was selected, and the fallback itself raises [IndexError], as
    [random.choice] is handed the empty list.  A fresh installation gets
    there on its first reaction whenever the handler takes the weighted
    path. *)
Lemma selector_fallback_raises_on_empty :
  let w := fresh weighted in
  song_scores w = [] /\
  scan_songs (first_draw w) (order_by_score_desc (song_scores w)) = None /\
  fst (get_weighted_shuffled_song w) = Raise IndexError /\
  fst (main ["weighted_shuffle.py"; "status"] w) = Raise IndexError.
Proof. vm_compute. repeat split; reflexivity. Qed.

(** The fallback with one scored song and a draw beyond the total. *)
Lemma selector_fallback_nonempty_witness :
  let w := one_song overshoot in
  (song_scores w <> [] /\
   scan_songs (first_draw w) (order_by_score_desc (song_scores w)) = None) /\
  fst (get_weighted_shuffled_song w) = Ok (SongScores.Row "/m/a.mp3" 15 0).
Proof.
  intros w.
  assert (Hne : song_scores w <> []) by discriminate.
  assert (Hscan : scan_songs (first_draw w) (order_by_score_desc (song_scores w)) = None)
    by (vm_compute; reflexivity).
  split; [split; assumption|].
  destruct (selector_fallback_nonempty w Hne Hscan) as (song & Hsong & _ & Hrun).
  vm_compute in Hsong. injection Hsong as <-. rewrite Hrun. reflexivity.
Defined.

(** C5 on the scripted player: a snapshot of the song already stored changes
    nothing, and neither does a second call after a first one that stored
    the snapshot. *)
Lemma handle_state_change_same_path_witness :
  let new_state := snapshot "/m/a.mp3" in
  (new_state !! "file" = Some "/m/a.mp3" /\
   last_path (state_changes (suppressed quiet)) = Some "/m/a.mp3" /\
   snd (handle_state_change new_state (suppressed quiet)) = suppressed quiet) /\
  (fst (handle_state_change new_state (fresh quiet)) = Ok tt /\
   later_than_all (fst (datetime_now (env (fresh quiet)))) (state_changes (fresh quiet)) /\
   let w1 := snd (handle_state_change new_state (fresh quiet)) in
   handle_state_change new_state w1 = (Ok tt, w1)).
Proof.
  intros new_state.
  destruct handle_state_change_same_path as [Hsame Htwice].
  assert (Hfile : new_state !! "file" = Some "/m/a.mp3") by reflexivity.
  assert (Hlast : last_path (state_changes (suppressed quiet)) = Some "/m/a.mp3")
    by reflexivity.
  assert (Hok : fst (handle_state_change new_state (fresh quiet)) = Ok tt)
    by (vm_compute; reflexivity).
  assert (Hlater : later_than_all (fst (datetime_now (env (fresh quiet))))
                                  (state_changes (fresh quiet)))
    by constructor.
  split.
  - split; [exact Hfile|]. split; [exact Hlast|].
    apply (Hsame new_state "/m/a.mp3" (suppressed quiet) Hfile Hlast).
  - split; [exact Hok|]. split; [exact Hlater|].
    apply (Htwice new_state (fresh quiet) Hok Hlater).
Defined.

(** C6 with twenty songs queued: only the queue is asked for. *)
Lemma add_to_queue_full_witness :
  let w := fresh busy in
  let query := ["cmus-remote"; "-C"; "save -q -"] in
  (fst (run_process query (env w)) = Some (join_lines (repeat "/m/b.mp3" 20)) /\
   (20 <= length (py_split newline (py_strip (join_lines (repeat "/m/b.mp3" 20)))))%nat) /\
  fst (add_to_queue "/m/c.mp3" w) = Ok tt /\
  calls (snd (add_to_queue "/m/c.mp3" w)) = [query].
Proof.
  intros w query.
  assert (Hout : fst (run_process query (env w)) =
                 Some (join_lines (repeat "/m/b.mp3" 20))) by reflexivity.
  assert (Hlen : (20 <= length (py_split newline
                                  (py_strip (join_lines (repeat "/m/b.mp3" 20)))))%nat)
    by (vm_compute; lia).
  split; [split; assumption|].
  rewrite (add_to_queue_full "/m/c.mp3" _ w Hout Hlen). split; reflexivity.
Defined.

(** C7 on a fresh installation: the one command sent is [cmus-remote -r]. *)
Lemma handle_previous_empty_history_witness :
  queue_history (fresh quiet) = [] /\
  calls (snd (handle_previous (fresh quiet))) = [["cmus-remote"; "-r"]] /\
  fst (handle_previous (fresh quiet)) = Ok tt.
Proof.
  split; [reflexivity|].
  destruct (handle_previous_empty_history (fresh quiet) eq_refl)
    as (Hcalls & _ & _ & _ & _ & _ & Hres).
  split; [exact Hcalls | exact Hres].
Defined.

(** C10 on a fresh installation: the first reaction pushes the null path,
    and the next [handle_previous] (the clock set back in between) asks the
    player to play [None]. *)
Lemma first_transition_pushes_null_witness :
  let w := fresh quiet in
  let new_state := snapshot "/m/a.mp3" in
  let w1 := snd (handle_state_change new_state w) in
  let w2 := with_env quiet w1 in
  (state_changes w = [] /\
   pending_ignore (flag_stack w) = None /\
   well_formed new_state "/m/a.mp3" "playing" 3 200 /\
   fits_int64 3 = true /\ fits_int64 200 = true /\
   history_older_than 101 (queue_history w)) /\
  queue_history w1 = [QueueHistory.Row None 101] /\
  calls (snd (handle_previous w2)) =
    calls w2 ++ [["cmus-remote"; "-Q"];
                 ["cmus-remote"; "-C"; String.append "add -Q " "/m/a.mp3"];
                 ["cmus-remote"; "-C"; "player-play None"]] /\
  queue_history (snd (handle_previous w2)) = [].
Proof.
  intros w new_state w1 w2.
  assert (Hwf : well_formed new_state "/m/a.mp3" "playing" 3 200).
  { repeat split; try reflexivity; [exists "3" | exists "200"]; split; reflexivity. }
  assert (Holder : history_older_than 101 (queue_history w)) by constructor.
  split.
  { split; [reflexivity|]. split; [reflexivity|]. split; [exact Hwf|].
    split; [reflexivity|]. split; [reflexivity | exact Holder]. }
  destruct (first_transition_pushes_null
              new_state "/m/a.mp3" "playing" 3 200 w
              eq_refl eq_refl Hwf eq_refl eq_refl) as (Hq & Hprev).
  split; [exact Hq|].
  destruct (Hprev Holder) as [_ Hprevious].
  destruct (Hprevious quiet
                  (join_lines ["status playing"; "file /m/a.mp3";
                               "duration 200"; "position 3"])
                  new_state "/m/a.mp3") as [Hcalls Hhistory].
  - reflexivity.
  - vm_compute. reflexivity.
  - reflexivity.
  - eexists. reflexivity.
  - split; [exact Hcalls | exact Hhistory].
Defined.

(** The score bounds survive a [score] command on a song at the upper
    bound. *)
Lemma all_bounded_main_witness :
  let w := one_song quiet in
  all_bounded (song_scores w) /\
  all_bounded (song_scores (run ["weighted_shuffle.py"; "score"; "1"] w)).
Proof.
  intros w.
  assert (Hb : all_bounded (song_scores w)).
  { constructor; [|constructor]. unfold in_bounds, MIN_SCORE, MAX_SCORE. simpl. lia. }
  split; [exact Hb|].
  apply (all_bounded_main ["weighted_shuffle.py"; "score"; "1"] w Hb).
Defined.

Lemma main_keeps_keys_unique_witness :
  let w := suppressed quiet in
  keys_unique w /\ keys_unique (run ["weighted_shuffle.py"; "previous"] w).
Proof.
  intros w.
  assert (Hkeys : keys_unique w).
  { unfold keys_unique. simpl. split; [apply NoDup_nil_2|].
    split; apply NoDup_singleton. }
  split; [exact Hkeys|].
  apply (main_keeps_keys_unique ["weighted_shuffle.py"; "previous"] w Hkeys).
Defined.

Lemma main_keeps_score_records_witness :
  let w := one_song quiet in
  is_Some (stored_score "/m/a.mp3" (song_scores w)) /\
  is_Some (stored_score "/m/a.mp3"
             (song_scores (run ["weighted_shuffle.py"; "score"; "-1"] w))).
Proof.
  intros w.
  assert (Hrecord : is_Some (stored_score "/m/a.mp3" (song_scores w))).
  { exists 15. reflexivity. }
  split; [exact Hrecord|].
  apply (main_keeps_score_records ["weighted_shuffle.py"; "score"; "-1"]
           "/m/a.mp3" w Hrecord).
Defined.

Lemma other_commands_keep_scores_witness :
  let w := one_song quiet in
  let argv := ["weighted_shuffle.py"; "previous"] in
  stored_row "/m/a.mp3" (song_scores w) = Some (SongScores.Row "/m/a.mp3" 15 0) /\
  stored_row "/m/a.mp3" (song_scores (run argv w)) =
  Some (SongScores.Row "/m/a.mp3" 15 0).
Proof.
  intros w argv.
  assert (Hrow : stored_row "/m/a.mp3" (song_scores w) =
                 Some (SongScores.Row "/m/a.mp3" 15 0)) by reflexivity.
  split; [exact Hrow|].
  apply (other_commands_keep_scores argv "/m/a.mp3" _ w); [discriminate | exact Hrow].
Defined.

Lemma other_commands_keep_notification_flags_witness :
  let w := with_flag_stack (fun rows => rows ++ [FlagStack.Row 7 "notification_id" 8])
                           (suppressed quiet) in
  let argv := ["weighted_shuffle.py"; "status"] in
  NoDup (map FlagStack.flag_id (flag_stack w)) /\
  flags_named "notification_id" (flag_stack (run argv w)) =
  flags_named "notification_id" (flag_stack w).
Proof.
  intros w argv.
  assert (Hflags : NoDup (map FlagStack.flag_id (flag_stack w))).
  { simpl. apply NoDup_cons. split; [|apply NoDup_singleton].
    intros Hin. apply list_elem_of_singleton in Hin. discriminate. }
  split; [exact Hflags|].
  apply (other_commands_keep_notification_flags argv w); [discriminate | exact Hflags].
Defined.

Lemma selector_returns_stored_song_witness :
  let w := one_song weighted in
  let song := SongScores.Row "/m/a.mp3" 15 0 in
  fst (get_weighted_shuffled_song w) = Ok song /\
  song ∈ song_scores w /\
  song_scores (snd (get_weighted_shuffled_song w)) = song_scores w.
Proof.
  intros w song.
  assert (Hsong : fst (get_weighted_shuffled_song w) = Ok song)
    by (vm_compute; reflexivity).
  split; [exact Hsong|].
  apply (selector_returns_stored_song w song Hsong).
Defined.

Lemma add_to_queue_not_queued_witness :
  let w := fresh quiet in
  let query := ["cmus-remote"; "-C"; "save -q -"] in
  (fst (run_process query (env w)) = Some "/m/b.mp3" /\
   (length (py_split newline (py_strip "/m/b.mp3")) < 20)%nat /\
   "/m/a.mp3" ∉ py_split newline (py_strip "/m/b.mp3")) /\
  fst (add_to_queue "/m/a.mp3" w) = Ok tt /\
  calls (snd (add_to_queue "/m/a.mp3" w)) = [query; ["cmus-remote"; "-q"; "/m/a.mp3"]].
Proof.
  intros w query.
  assert (Hout : fst (run_process query (env w)) = Some "/m/b.mp3") by reflexivity.
  assert (Hlen : (length (py_split newline (py_strip "/m/b.mp3")) < 20)%nat)
    by (vm_compute; lia).
  assert (Hnot : "/m/a.mp3" ∉ py_split newline (py_strip "/m/b.mp3")).
  { intros Hin. apply elem_of_cons in Hin as [Hin|Hin]; [discriminate|].
    apply elem_of_nil in Hin. exact Hin. }
  split; [split; [exact Hout | split; assumption]|].
  rewrite (add_to_queue_not_queued "/m/a.mp3" "/m/b.mp3" w Hout Hlen Hnot).
  split; reflexivity.
Defined.

Lemma add_to_queue_all_queued_witness :
  let w := one_song crowded in
  let query := ["cmus-remote"; "-C"; "save -q -"] in
  let queue := py_split newline (py_strip "/m/a.mp3") in
  (fst (run_process query (env w)) = Some "/m/a.mp3" /\
   (length queue < 20)%nat /\
   "/m/a.mp3" ∈ queue /\
   song_scores w <> [] /\
   Forall (fun song => SongScores.path song ∈ queue) (song_scores w)) /\
  exists p,
    p ∈ queue /\
    calls (snd (add_to_queue "/m/a.mp3" w)) =
      calls w ++ [query; ["cmus-remote"; "-q"; p]] /\
    length (log_file (snd (add_to_queue "/m/a.mp3" w))) =
      (length (log_file w) + 10 +
       match fst (add_to_queue "/m/a.mp3" w) with Ok _ => 1 | Raise _ => 0 end)%nat.
Proof.
  intros w query queue.
  assert (Hout : fst (run_process query (env w)) = Some "/m/a.mp3") by reflexivity.
  assert (Hlen : (length queue < 20)%nat) by (vm_compute; lia).
  assert (Hqueued : "/m/a.mp3" ∈ queue) by left.
  assert (Hne : song_scores w <> []) by discriminate.
  assert (Hall : Forall (fun song => SongScores.path song ∈ queue) (song_scores w))
    by (constructor; [left | constructor]).
  split; [split; [exact Hout | split; [exact Hlen | split; [exact Hqueued | split; assumption]]]|].
  apply (add_to_queue_all_queued "/m/a.mp3" "/m/a.mp3" w Hout Hlen Hqueued Hne).
  intros song Hsong. exact (proj1 (Forall_forall _ _) Hall song Hsong).
Defined.

Lemma handle_previous_prepend_fails_witness :
  let w := played stubborn in
  let output := join_lines ["status playing"; "file /m/a.mp3";
                            "duration 200"; "position 3"] in
  let add := ["cmus-remote"; "-C"; String.append "add -Q " "/m/a.mp3"] in
  (latest QueueHistory.timestamp (queue_history w) =
     Some (0%nat, QueueHistory.Row (Some "/m/z.mp3") 5) /\
   fst (run_process ["cmus-remote"; "-Q"] (env w)) = Some output /\
   parse_status (py_split newline (py_strip output)) ∅ = Ok (snapshot "/m/a.mp3") /\
   snapshot "/m/a.mp3" !! "file" = Some "/m/a.mp3" /\
   fst (run_process add (snd (run_process ["cmus-remote"; "-Q"] (env w)))) = None) /\
  fst (handle_previous w) = Raise CalledProcessError /\
  queue_history (snd (handle_previous w)) = [] /\
  calls (snd (handle_previous w)) = [["cmus-remote"; "-Q"]; add].
Proof.
  intros w output add.
  assert (Hparse : parse_status (py_split newline (py_strip output)) ∅ =
                   Ok (snapshot "/m/a.mp3")) by (vm_compute; reflexivity).
  split.
  { split; [reflexivity|]. split; [reflexivity|]. split; [exact Hparse|].
    split; reflexivity. }
  rewrite (handle_previous_prepend_fails
             w 0%nat (QueueHistory.Row (Some "/m/z.mp3") 5) output
             (snapshot "/m/a.mp3") "/m/a.mp3" eq_refl eq_refl Hparse eq_refl eq_refl).
  split; [reflexivity|]. split; reflexivity.
Defined.

Lemma handle_previous_no_current_file_witness :
  let w := played overshoot in
  (latest QueueHistory.timestamp (queue_history w) =
     Some (0%nat, QueueHistory.Row (Some "/m/z.mp3") 5) /\
   fst (run_process ["cmus-remote"; "-Q"] (env w)) = Some EmptyString /\
   parse_status (py_split newline (py_strip EmptyString)) ∅ = Ok ∅ /\
   (∅ : gmap string string) !! "file" = None) /\
  fst (handle_previous w) = Raise (KeyError "file") /\
  queue_history (snd (handle_previous w)) = queue_history w.
Proof.
  intros w.
  split.
  { split; [reflexivity|]. split; [reflexivity|]. split; reflexivity. }
  rewrite (handle_previous_no_current_file
             w 0%nat (QueueHistory.Row (Some "/m/z.mp3") 5) EmptyString ∅
             eq_refl eq_refl eq_refl eq_refl).
  split; reflexivity.
Defined.

Lemma previous_pushes_ignore_first_witness :
  let w := fresh quiet in
  let argv := ["weighted_shuffle.py"; "previous"] in
  (argv !! 1%nat = Some "previous" /\
   next_rowid (map FlagStack.flag_id (flag_stack w)) = Some 1) /\
  flag_stack (run argv w) = [FlagStack.Row 1 "ignore" 100].
Proof.
  intros w argv. split; [split; reflexivity|].
  apply (previous_pushes_ignore_first argv w 1 eq_refl eq_refl).
Defined.

(** X17 on a report whose file line ends in a no-break space: the stored
    value is the path without it. *)
Lemma parse_status_sound_witness :
  let lines := ["status playing"; String.append "file /m/a.mp3" nbsp;
                "tag artist x"] in
  let state : gmap string string :=
    <["file" := "/m/a.mp3"]> (<["status" := "playing"]> ∅) in
  (parse_status lines ∅ = Ok state /\ state !! "file" = Some "/m/a.mp3") /\
  startswith_any ["status"; "file"; "position"; "duration"] "file" = true /\
  exists line v,
    line ∈ lines /\ py_split1 space line = Some ("file", v) /\
    "/m/a.mp3" = py_strip v.
Proof.
  intros lines state.
  assert (Hparse : parse_status lines ∅ = Ok state) by (vm_compute; reflexivity).
  assert (Hfile : state !! "file" = Some "/m/a.mp3") by reflexivity.
  split; [split; assumption|].
  apply (parse_status_sound lines state "file" "/m/a.mp3" Hparse Hfile).
Defined.

Lemma remember_notification_round_trip_witness :
  let w := notified quiet in
  (one_notification w /\ remembered_handle 7 (flag_stack w) /\ fits_int64 9 = true) /\
  fst (remember_notification 7 9 w) = Ok tt /\
  remembered_handle 9 (flag_stack (snd (remember_notification 7 9 w))).
Proof.
  intros w.
  assert (Hone : one_notification w).
  { unfold one_notification, count_flags. vm_compute. lia. }
  assert (Hnid : remembered_handle 7 (flag_stack w)) by reflexivity.
  split; [split; [exact Hone | split; [exact Hnid | reflexivity]]|].
  apply (remember_notification_round_trip 7 9 w Hone Hnid eq_refl).
Defined.

Lemma main_logs_exception_witness :
  let w := fresh quiet in
  fst (main ["weighted_shuffle.py"] w) = Raise IndexError /\
  exists t, last (log_file (snd (main ["weighted_shuffle.py"] w))) =
            Some (t, LogTraceback IndexError).
Proof.
  intros w.
  assert (Hraise : fst (main ["weighted_shuffle.py"] w) = Raise IndexError)
    by reflexivity.
  split; [exact Hraise|].
  apply (main_logs_exception ["weighted_shuffle.py"] w IndexError Hraise).
Defined.

Lemma score_command_commits_score_witness :
  let w := fresh quiet in
  let argv := ["weighted_shuffle.py"; "score"; "1"] in
  let output := join_lines ["status playing"; "file /m/a.mp3";
                            "duration 200"; "position 3"] in
  (argv !! 1%nat = Some "score" /\ argv !! 2%nat = Some "1" /\
   py_int "1" = Some 1 /\
   fst (run_process ["cmus-remote"; "-Q"] (env w)) = Some output /\
   parse_status (py_split newline (py_strip output)) ∅ = Ok (snapshot "/m/a.mp3") /\
   snapshot "/m/a.mp3" !! "file" = Some "/m/a.mp3") /\
  stored_score "/m/a.mp3" (song_scores (run argv w)) = Some 3.
Proof.
  intros w argv output.
  assert (Hparse : parse_status (py_split newline (py_strip output)) ∅ =
                   Ok (snapshot "/m/a.mp3")) by (vm_compute; reflexivity).
  split.
  { split; [reflexivity|]. split; [reflexivity|]. split; [reflexivity|].
    split; [reflexivity|]. split; [exact Hparse | reflexivity]. }
  apply (score_command_commits_score argv "1" 1 output (snapshot "/m/a.mp3")
           "/m/a.mp3" w eq_refl eq_refl eq_refl eq_refl Hparse eq_refl).
Defined.

Lemma score_command_bad_increment_witness :
  let w := one_song quiet in
  let argv := ["weighted_shuffle.py"; "score"; "up"] in
  (argv !! 1%nat = Some "score" /\ argv !! 2%nat ≫= py_int = None) /\
  fst (main argv w) = Raise ValueError /\
  calls (snd (main argv w)) = [] /\
  song_scores (snd (main argv w)) = song_scores w.
Proof.
  intros w argv. split; [split; reflexivity|].
  rewrite (score_command_bad_increment argv w eq_refl eq_refl).
  split; [reflexivity|]. split; reflexivity.
Defined.

Lemma react_without_file_witness :
  let w := fresh overshoot in
  let argv := ["weighted_shuffle.py"; "status"] in
  (argv !! 1%nat = Some "status" /\
   fst (run_process ["cmus-remote"; "-Q"] (env w)) = Some EmptyString /\
   parse_status (py_split newline (py_strip EmptyString)) ∅ = Ok ∅ /\
   (∅ : gmap string string) !! "file" = None) /\
  fst (main argv w) = Raise (KeyError "file") /\
  state_changes (snd (main argv w)) = [] /\
  calls (snd (main argv w)) = [["cmus-remote"; "-Q"]].
Proof.
  intros w argv.
  split.
  { split; [reflexivity|]. split; [reflexivity|]. split; reflexivity. }
  assert (Hprevious : "status" <> "previous") by discriminate.
  assert (Hscore : "status" <> "score") by discriminate.
  rewrite (react_without_file argv "status" EmptyString ∅ w
             eq_refl Hprevious Hscore eq_refl eq_refl eq_refl).
  split; [reflexivity|]. split; reflexivity.
Defined.

Lemma handle_state_change_ensures_record_witness :
  let w := fresh quiet in
  let new_state := snapshot "/m/a.mp3" in
  (new_state !! "file" = Some "/m/a.mp3" /\
   pending_ignore (flag_stack w) = None /\
   fst (handle_state_change new_state w) = Ok tt) /\
  is_Some (stored_score "/m/a.mp3"
             (song_scores (snd (handle_state_change new_state w)))).
Proof.
  intros w new_state.
  assert (Hok : fst (handle_state_change new_state w) = Ok tt)
    by (vm_compute; reflexivity).
  assert (Hchange : last_path (state_changes w) <> Some "/m/a.mp3") by discriminate.
  split; [split; [reflexivity | split; [reflexivity | exact Hok]]|].
  apply (handle_state_change_ensures_record new_state "/m/a.mp3" w
           eq_refl Hchange eq_refl Hok).
Defined.

(** ** The selector in exact arithmetic *)

Lemma weight_sum_nonneg songs : (0 <= weight_sum songs)%Q.
Proof.
  induction songs as [|song rest IH]; simpl; [apply Qle_refl|].
  apply Qle_trans with (0 + 0)%Q; [discriminate|].
  apply Qplus_le_compat; [|exact IH].
  apply Qpower_0_le. discriminate.
Qed.

Lemma fold_left_weight_sum songs (a : Q) :
  (fold_left Qplus (map (fun song => Qpower (2 # 1) (SongScores.score song)) songs) a
   == a + weight_sum songs)%Q.
Proof.
  revert a. induction songs as [|song rest IH]; intros a; simpl.
  - ring.
  - rewrite IH. ring.
Qed.

Lemma total_weight_sum songs : (total_weight songs == weight_sum songs)%Q.
Proof.
  unfold total_weight. simpl. rewrite fold_left_weight_sum. ring.
Qed.

Lemma scan_songs_cons (r : Q) song rest :
  scan_songs r (song :: rest) =
  if Qle_bool (r - Qpower (2 # 1) (SongScores.score song)) 0 then Some song
  else scan_songs (r - Qpower (2 # 1) (SongScores.score song))%Q rest.
Proof. reflexivity. Qed.

(** A scan that runs past the last song started above the total weight. *)
Lemma scan_songs_None (r : Q) songs :
  songs <> [] -> scan_songs r songs = None -> (weight_sum songs < r)%Q.
Proof.
  revert r. induction songs as [|song rest IH]; intros r Hne; [destruct Hne; reflexivity|].
  rewrite scan_songs_cons.
  destruct (Qle_bool (r - Qpower (2 # 1) (SongScores.score song)) 0) eqn:Hle;
    [discriminate|].
  assert (Hpos : (0 < r - Qpower (2 # 1) (SongScores.score song))%Q).
  { apply Qnot_le_lt. intros Hle'. apply Qle_bool_iff in Hle'.
    rewrite Hle' in Hle. discriminate. }
  destruct rest as [|song' rest'].
  - intros _. simpl.
    apply Qlt_le_trans with (Qpower (2 # 1) (SongScores.score song)
                             + (r - Qpower (2 # 1) (SongScores.score song)))%Q.
    + apply Qplus_lt_r. exact Hpos.
    + ring_simplify. apply Qle_refl.
  - intros Hscan. specialize (IH _ ltac:(discriminate) Hscan).
    apply Qlt_le_trans with (Qpower (2 # 1) (SongScores.score song)
                             + (r - Qpower (2 # 1) (SongScores.score song)))%Q.
    + apply Qplus_lt_r. exact IH.
    + ring_simplify. apply Qle_refl.
Qed.

(** X1: in exact arithmetic, with [random.random()] in the unit interval
    and a score store that is not empty, the subtraction loop of the
    selector always selects a song: the fallback after the loop is not
    reached, and the selector returns the selected song after logging
    it. *)
Theorem selector_loop_selects (w : World) :
  song_scores w <> [] ->
  (0 <= draw (env w) <= 1)%Q ->
  exists song,
    scan_songs (first_draw w) (order_by_score_desc (song_scores w)) = Some song /\
    get_weighted_shuffled_song w =
      (Ok song,
       mkWorld (song_scores w) (flag_stack w) (queue_history w) (state_changes w)
               (log_file w ++ [(clock (env w), LogPicked (SongScores.path song))])
               (calls w)
               (Script (clock (env w) + 1) (replies (env w)) (draw (env w))
                       (pick (env w)))).
Proof.
  intros Hne [Hlow Hhigh].
  set (songs := order_by_score_desc (song_scores w)).
  assert (Hsongs : songs <> []).
  { intros Hnil. apply Hne. apply Permutation_nil_r.
    rewrite <- Hnil. symmetry. apply order_by_score_desc_perm. }
  assert (Hdraw : (first_draw w <= weight_sum songs)%Q).
  { unfold first_draw. fold songs. simpl.
    rewrite total_weight_sum.
    assert (Heq : (inject_Z 0 + (weight_sum songs - inject_Z 0) * draw (env w)
                   == weight_sum songs * draw (env w))%Q) by (unfold inject_Z; ring).
    rewrite Heq.
    apply Qle_trans with (weight_sum songs * 1)%Q; [|rewrite Qmult_1_r; apply Qle_refl].
    rewrite !(Qmult_comm (weight_sum songs)).
    apply Qmult_le_compat_r; [exact Hhigh | apply weight_sum_nonneg]. }
  destruct (scan_songs (first_draw w) songs) as [song|] eqn:Hscan.
  - exists song. split; [reflexivity|].
    unfold get_weighted_shuffled_song. rewrite bind_gets. fold songs.
    unfold uniform. rewrite bind_assoc, bind_random. cbv beta. rewrite bind_ret.
    change (scan_songs _ songs) with (scan_songs (first_draw w) songs).
    rewrite Hscan. rewrite bind_log. reflexivity.
  - pose proof (scan_songs_None _ _ Hsongs Hscan) as Habove.
    exfalso. apply (Qlt_not_le _ _ Habove). exact Hdraw.
Qed.

Lemma selector_loop_selects_witness :
  let w := one_song weighted in
  (song_scores w <> [] /\ (0 <= draw (env w) <= 1)%Q) /\
  exists song,
    scan_songs (first_draw w) (order_by_score_desc (song_scores w)) = Some song /\
    get_weighted_shuffled_song w =
      (Ok song,
       mkWorld (song_scores w) (flag_stack w) (queue_history w) (state_changes w)
               (log_file w ++ [(clock (env w), LogPicked (SongScores.path song))])
               (calls w)
               (Script (clock (env w) + 1) (replies (env w)) (draw (env w))
                       (pick (env w)))).
Proof.
  intros w.
  assert (Hne : song_scores w <> []) by discriminate.
  assert (Hdraw : (0 <= draw (env w) <= 1)%Q) by (split; discriminate).
  split; [split; assumption|].
  apply (selector_loop_selects w Hne Hdraw).
Defined.

(** C9 on a store of one song: the stored score of [/m/a.mp3] is returned,
    and [/m/b.mp3] gets a record with the default score. *)
Lemma get_score_existing_or_default_witness :
  let w := one_song quiet in
  let row := SongScores.Row "/m/a.mp3" 15 0 in
  (NoDup (map SongScores.path (song_scores w)) /\
   row ∈ song_scores w /\
   "/m/b.mp3" ∉ map SongScores.path (song_scores w)) /\
  get_score "/m/a.mp3" w = (Ok 15, w) /\
  fst (get_score "/m/b.mp3" w) = Ok 2 /\
  song_scores (snd (get_score "/m/b.mp3" w)) =
    [row; SongScores.Row "/m/b.mp3" 2 101].
Proof.
  intros w row.
  assert (Hkeys : NoDup (map SongScores.path (song_scores w)))
    by apply NoDup_singleton.
  assert (Hrow : row ∈ song_scores w) by left.
  assert (Habsent : "/m/b.mp3" ∉ map SongScores.path (song_scores w)).
  { intros Hin. apply list_elem_of_singleton in Hin. discriminate. }
  split; [split; [exact Hkeys | split; assumption]|].
  destruct (get_score_existing_or_default "/m/a.mp3" w) as [Hstored _].
  destruct (get_score_existing_or_default "/m/b.mp3" w) as [_ Hnew].
  split; [exact (Hstored row Hkeys Hrow eq_refl)|].
  rewrite (Hnew Habsent). split; reflexivity.
Defined.

(** C5 after the clock was set back: the installation saw [/m/b.mp3] at
    time 500, then the clock reads 100.  The snapshot of [/m/a.mp3] is
    stored with a timestamp below 500, so the most recent snapshot is still
    that of [/m/b.mp3], and a second call with the same snapshot stores it
    again, pushes the history again and enqueues again. *)
Lemma same_snapshot_handled_twice :
  let w := with_env quiet (run ["weighted_shuffle.py"; "status"] (fresh late)) in
  let new_state := snapshot "/m/a.mp3" in
  let w1 := snd (handle_state_change new_state w) in
  let w2 := snd (handle_state_change new_state w1) in
  reachable w /\
  fst (handle_state_change new_state w) = Ok tt /\
  fst (handle_state_change new_state w1) = Ok tt /\
  map StateChanges.path (state_changes w1) = ["/m/b.mp3"; "/m/a.mp3"] /\
  map StateChanges.path (state_changes w2) = ["/m/b.mp3"; "/m/a.mp3"; "/m/a.mp3"] /\
  length (queue_history w2) = S (length (queue_history w1)) /\
  calls w2 = calls w1 ++ [["cmus-remote"; "-C"; "save -l -"];
                          ["cmus-remote"; "-C"; "save -q -"];
                          ["cmus-remote"; "-q"; "/m/a.mp3"]].
Proof.
  intros w new_state w1 w2. split.
  { apply reach_env, reach_main, reach_start. repeat split. }
  vm_compute. repeat split.
Qed.

